(** * nao_pos_server: the keyframe (.pos) file parser

    A shallow embedding of [parser::parse] and [parser::split] from
    [nao_pos_server/src/parser.cpp], together with the properties that the
    design document states about them.

    Layout of the development:
    - [Text]      characters, [std::string::front], [parser::split];
    - [Numeric]   [std::stoi], [std::stof] and the IEEE 754 arithmetic that
                  the degree-to-radian conversion performs;
    - [JointPositions], [JointStiffnesses], [KeyFrame], [ParseResult]:
                  the message and result types;
    - [Parser]    the body of [parser::parse], parameterised by [NUMJOINTS];
    - the theorems. *)

From Stdlib Require Import ZArith List Bool Lia String Ascii SpecFloat.
From Stdlib Require Import Reals Lra Machin.
From Stdlib Require Import DecimalString Sorted.
Import ListNotations.

Local Open Scope string_scope.
Local Open Scope list_scope.
Local Open Scope Z_scope.

(* ================================================================== *)
(** * Text: characters, tokens *)

Module Text.

(** [std::isspace] in the classic locale: space, \t, \n, \v, \f, \r. *)
Definition isspace (c : ascii) : bool :=
  let n := nat_of_ascii c in
  (Nat.eqb n 32 || (Nat.leb 9 n && Nat.leb n 13))%bool.

(** [std::string::front]: the first character.  The call has a
    precondition, [!empty()]; on an empty string the behaviour is
    undefined, which is the [None] here. *)
Definition front (s : string) : option ascii :=
  match s with
  | EmptyString => None
  | String c _ => Some c
  end.

(** Appending one character, [std::string::push_back]. *)
Definition snoc (s : string) (c : ascii) : string :=
  String.append s (String c EmptyString).

(** The extraction loop behind [std::istream_iterator<std::string>]:
    [tok] is the token being read, [s] the unread input.  Each extraction
    skips white space, then reads up to the next white space or the end. *)
Fixpoint split_from (tok : string) (s : string) : list string :=
  match s with
  | EmptyString =>
      match tok with EmptyString => [] | _ => [tok] end
  | String c s' =>
      if isspace c then
        match tok with
        | EmptyString => split_from EmptyString s'
        | _ => tok :: split_from EmptyString s'
        end
      else split_from (snoc tok c) s'
  end.

(** [parser::split]. *)
Definition split (line : string) : list string := split_from EmptyString line.

(** Dropping leading white space, as [strtol] and [strtof] do first. *)
Fixpoint skip_space (s : string) : string :=
  match s with
  | String c s' => if isspace c then skip_space s' else s
  | EmptyString => s
  end.

(** The value of a character as a digit in base 10 or 16. *)
Definition digit_value (base : Z) (c : ascii) : option Z :=
  let n := Z.of_nat (nat_of_ascii c) in
  let v :=
    if (48 <=? n) && (n <=? 57) then Some (n - 48)
    else if (97 <=? n) && (n <=? 102) then Some (n - 87)
    else if (65 <=? n) && (n <=? 70) then Some (n - 55)
    else None in
  match v with
  | Some d => if d <? base then Some d else None
  | None => None
  end.

(** Reading a maximal run of digits: the value accumulated onto [acc], the
    number of digits read, and the rest of the input. *)
Fixpoint read_digits (base : Z) (acc : Z) (s : string) : Z * nat * string :=
  match s with
  | String c s' =>
      match digit_value base c with
      | Some d =>
          let '(v, n, r) := read_digits base (acc * base + d) s' in (v, S n, r)
      | None => (acc, O, s)
      end
  | EmptyString => (acc, O, s)
  end.

(** An optional sign: [true] for '-'. *)
Definition read_sign (s : string) : bool * string :=
  match s with
  | String "-" s' => (true, s')
  | String "+" s' => (false, s')
  | _ => (false, s)
  end.

(** ASCII lower-casing, for the case-insensitive keywords of [strtof]. *)
Definition tolower (c : ascii) : ascii :=
  let n := nat_of_ascii c in
  if (Nat.leb 65 n && Nat.leb n 90)%bool then ascii_of_nat (n + 32) else c.

(** Does [s] start with the keyword [kw], ignoring case?  The rest of the
    input when it does. *)
Fixpoint match_keyword (kw s : string) : option string :=
  match kw, s with
  | EmptyString, _ => Some s
  | String k kw', String c s' =>
      if Ascii.eqb k (tolower c) then match_keyword kw' s' else None
  | String _ _, EmptyString => None
  end.

End Text.

(* ================================================================== *)
(** * Numeric: the conversions of <string> and the arithmetic of <cmath> *)

Module Numeric.
Import Text.

(** What one call of [std::stoi] or [std::stof] does: it returns a value or
    throws one of two exceptions. *)
Inductive conversion (A : Type) : Type :=
| Converted (a : A)
| invalid_argument          (* throws std::invalid_argument: no conversion *)
| out_of_range.             (* throws std::out_of_range: ERANGE, or not an int *)

Arguments Converted {A} a.
Arguments invalid_argument {A}.
Arguments out_of_range {A}.

Definition INT_MIN : Z := -2147483648.
Definition INT_MAX : Z := 2147483647.
Definition UINT_MODULUS : Z := 4294967296.

(** [std::stoi(str)]: [strtol] in base 10 over [str.c_str()].  White space
    is skipped, a sign is optional, the longest run of digits is converted
    and whatever follows is ignored; without a digit there is no
    conversion.  A value that does not fit [int] is out of range (which
    covers [ERANGE], the range of [long] being no smaller). *)
Definition stoi (str : string) : conversion Z :=
  let '(neg, s) := read_sign (skip_space str) in
  let '(v, n, _) := read_digits 10 0 s in
  match n with
  | O => invalid_argument
  | S _ =>
      let x := if neg then - v else v in
      if (INT_MIN <=? x) && (x <=? INT_MAX) then Converted x else out_of_range
  end.

(** ** IEEE 754 formats *)

Record format := { prec : Z; emax : Z }.
Definition binary32 : format := {| prec := 24; emax := 128 |}.
Definition binary64 : format := {| prec := 53; emax := 1024 |}.

(** A [float] and a [double] are both [spec_float]s; operations name the
    format they round to. *)
Definition round_to (f : format) (x : spec_float) : spec_float :=
  match x with
  | S754_finite s m e => binary_round (prec f) (emax f) s m e
  | _ => x
  end.

Definition mul (f : format) := SFmul (prec f) (emax f).
Definition div (f : format) := SFdiv (prec f) (emax f).
Definition of_int (f : format) (n : Z) : spec_float :=
  binary_normalize (prec f) (emax f) n 0 false.

(** The number [m * base ^ e] ([base] 2 or 10, [m >= 0]) rounded to nearest
    even in format [f], with sign [neg]. *)
Definition of_scaled (f : format) (neg : bool) (base m e : Z) : spec_float :=
  match m with
  | Z0 => S754_zero neg
  | Zpos p =>
      if base =? 2 then binary_round (prec f) (emax f) neg p e
      else if 0 <=? e then
        binary_round (prec f) (emax f) neg (Z.to_pos (m * base ^ e)) 0
      else
        div f (S754_finite neg p 0) (S754_finite false (Z.to_pos (base ^ (- e))) 0)
  | Zneg _ => S754_nan
  end.

(** ** Rounding as [strtof] does it *)

(** Rounding to nearest, ties to even: is the magnitude rounded away from
    zero?  [odd] is the last bit kept, [half] the first bit dropped,
    [more] tells whether a lower bit is set. *)
Definition round_away (odd half more : bool) : bool := half && (more || odd).

(** The exponent of the leading bit of [num / den], both positive. *)
Definition exponent_of (num den : Z) : Z :=
  let d := Z.log2 num - Z.log2 den in
  let below :=
    if 0 <=? d then num <? den * 2 ^ d else num * 2 ^ (- d) <? den in
  if below then d - 1 else d.

(** A magnitude [m * 2 ^ e] with its sign. *)
Definition signed (neg : bool) (m e : Z) : spec_float :=
  match m with
  | Zpos p => S754_finite neg p e
  | _ => S754_zero neg
  end.

(** [round_and_return] of the GNU C library's [strtof] and [strtod], for
    the positive number [num / den]; [lost] tells whether nonzero digits
    were left out of [num].  The leading [prec] bits are [retval], the next
    one is the round bit, [more_bits] tells whether anything is left.
    Below the normal range the mantissa is shifted right; the round bit of
    before the shift is not kept among the lower bits.  [ERANGE] is set on
    overflow, and on underflow when the result is tiny (judged after
    rounding to [prec] bits) and bits were lost. *)
Definition round_and_return (f : format) (neg : bool) (num den : Z)
  (lost : bool) : conversion spec_float :=
  let exponent := exponent_of num den in
  let sh := prec f - exponent in
  let '(q, r) :=
    if 0 <=? sh then Z.div_eucl (num * 2 ^ sh) den
    else Z.div_eucl num (den * 2 ^ (- sh)) in
  let retval := q / 2 in
  let round_bit := Z.odd q in
  let more_bits := lost || negb (r =? 0) in
  let min_exp := 2 - emax f in
  if exponent <? min_exp - prec f then out_of_range
  else if exponent <? min_exp then
    let shift := min_exp - exponent in
    let is_tiny :=
      negb ((shift =? 1) &&
            round_away (Z.odd retval) round_bit more_bits &&
            (retval + 1 =? 2 ^ prec f)) in
    let more_bits := more_bits || negb (retval mod 2 ^ (shift - 1) =? 0) in
    let round_bit := Z.testbit retval (shift - 1) in
    let retval := retval / 2 ^ shift in
    if is_tiny && (round_bit || more_bits) then out_of_range
    else
      Converted
        (signed neg
           (retval + if round_away (Z.odd retval) round_bit more_bits
                     then 1 else 0)
           (min_exp - prec f + 1))
  else
    let rounded :=
      retval + if round_away (Z.odd retval) round_bit more_bits
               then 1 else 0 in
    let '(m, e) :=
      if rounded =? 2 ^ prec f then (2 ^ (prec f - 1), exponent - prec f + 2)
      else (rounded, exponent - prec f + 1) in
    if emax f - prec f <? e then out_of_range
    else Converted (signed neg m e).

(** ** Floating literals, as [strtof] reads them *)

(** Digits with an optional radix point, at least one digit in all: the
    digits as one integer, the number of digits after the point, the rest. *)
Definition read_mantissa (base : Z) (s : string) : option (Z * Z * string) :=
  let '(vi, ni, r) := read_digits base 0 s in
  match r with
  | String "." r' =>
      let '(vf, nf, r'') := read_digits base vi r' in
      match (ni + nf)%nat with
      | O => None
      | S _ => Some (vf, Z.of_nat nf, r'')
      end
  | _ =>
      match ni with
      | O => None
      | S _ => Some (vi, 0, r)
      end
  end.

(** An optional exponent part: the marker ('e' or 'p'), an optional sign
    and at least one decimal digit; 0 when there is none. *)
Definition read_exponent (marker : ascii) (s : string) : Z :=
  match s with
  | String c s' =>
      if Ascii.eqb (tolower c) marker then
        let '(neg, s'') := read_sign s' in
        let '(v, n, _) := read_digits 10 0 s'' in
        match n with
        | O => 0
        | S _ => if neg then - v else v
        end
      else 0
  | EmptyString => 0
  end.

(** A hexadecimal literal: 0x, hexadecimal digits, optional binary
    exponent.  The result is [(m, e)] for the value [m * 2 ^ e]. *)
Definition read_hex (s : string) : option (Z * Z) :=
  match s with
  | String "0" (String x r) =>
      if Ascii.eqb (tolower x) "x" then
        match read_mantissa 16 r with
        | Some (m, nf, r') => Some (m, read_exponent "p" r' - 4 * nf)
        | None => None
        end
      else None
  | _ => None
  end.

(** A decimal literal: [(m, e)] for the value [m * 10 ^ e]. *)
Definition read_decimal (s : string) : option (Z * Z) :=
  match read_mantissa 10 s with
  | Some (m, nf, r') => Some (m, read_exponent "e" r' - nf)
  | None => None
  end.

(** The number of decimal digits after the point that [strtof] reads at
    most, [MANT_DIG - MIN_EXP + 2]: enough for a quarter of the least
    subnormal number.  A nonzero digit beyond them is only recorded. *)
Definition need_frac_digits (f : format) : Z := prec f + emax f - 1.

(** The conversion of the literal [m * base ^ e] to format [f].  A decimal
    literal with more digits after the point than [need_frac_digits] is
    cut there; when nothing is left of it the number underflows. *)
Definition convert(f : format) (neg : bool) (base m e : Z)
  : conversion spec_float :=
  if m =? 0 then Converted (S754_zero neg)
  else if (base =? 10) && (e <? - need_frac_digits f) then
    let cut := 10 ^ (- e - need_frac_digits f) in
    if m / cut =? 0 then out_of_range
    else
      round_and_return f neg (m / cut) (10 ^ need_frac_digits f)
        (negb (m mod cut =? 0))
  else
    round_and_return f neg (m * base ^ Z.max e 0) (base ^ Z.max (- e) 0) false.

(** [strtod]-style conversion to format [f], in the classic locale: white
    space, an optional sign, then "inf"/"infinity", "nan", a hexadecimal
    or a decimal floating literal; the longest such prefix is converted
    and whatever follows is ignored. *)
Definition strto (f : format) (str : string) : conversion spec_float :=
  let '(neg, s) := read_sign (skip_space str) in
  match match_keyword "inf" s, match_keyword "nan" s with
  | Some _, _ => Converted (S754_infinity neg)
  | None, Some _ => Converted S754_nan
  | None, None =>
      match read_hex s with
      | Some (m, e) => convert f neg 2 m e
      | None =>
          match read_decimal s with
          | Some (m, e) => convert f neg 10 m e
          | None => invalid_argument
          end
      end
  end.

(** [std::stof(str)]: [strtof] over [str.c_str()]; no conversion throws
    [std::invalid_argument], [ERANGE] throws [std::out_of_range]. *)
Definition stof (str : string) : conversion spec_float := strto binary32 str.

(** [M_PI] of <cmath>: the [double] literal 3.14159265358979323846. *)
Definition M_PI : spec_float := Eval vm_compute in
  of_scaled binary64 false 10 314159265358979323846 (-20).

(** [position_deg * M_PI / 180] assigned to a [float]: the [float] operand
    is promoted to [double], both operations are [double] operations, and
    the quotient is rounded to [float]. *)
Definition deg2rad (position_deg : spec_float) : spec_float :=
  round_to binary32
    (div binary64 (mul binary64 position_deg M_PI) (of_int binary64 180)).

(** The [double] literal [1.0] stored into a [float]. *)
Definition full_stiffness : spec_float := Eval vm_compute in
  round_to binary32 (of_int binary64 1).

End Numeric.

Import Text Numeric.

(* ================================================================== *)
(** * Messages and results *)

(** [uint8_t]: conversion of an integer to 8 bits. *)
Definition uint8_t (n : Z) : Z := n mod 256.

(** [nao_lola_command_msgs::msg::JointPositions]: two parallel vectors,
    [uint8[] indexes] and [float32[] positions]. *)
Module JointPositions.
Record t : Type := { indexes : list Z; positions : list spec_float }.
Definition empty : t := {| indexes := []; positions := [] |}.
Definition push_back (m : t) (i : Z) (x : spec_float) : t :=
  {| indexes := indexes m ++ [i]; positions := positions m ++ [x] |}.
End JointPositions.

(** [nao_lola_command_msgs::msg::JointStiffnesses]: [uint8[] indexes] and
    [float32[] stiffnesses]. *)
Module JointStiffnesses.
Record t : Type := { indexes : list Z; stiffnesses : list spec_float }.
Definition empty : t := {| indexes := []; stiffnesses := [] |}.
Definition push_back (m : t) (i : Z) (x : spec_float) : t :=
  {| indexes := indexes m ++ [i]; stiffnesses := stiffnesses m ++ [x] |}.
End JointStiffnesses.

(** Modelled from the spec: the declaration of [KeyFrame], whose header is
    not among the sources.  The fields are those of the design document,
    in the order of the initialiser [KeyFrame{keyFrameTime, jointPositions,
    jointStiffnesses}] in [parse]; [absolute_time] is an [unsigned]. *)
Module KeyFrame.
Record t : Type := {
  absolute_time : Z;
  positions : JointPositions.t;
  stiffnesses : JointStiffnesses.t }.
End KeyFrame.

(** [ParseResult], as [parse] uses it: the flag and the keyframes. *)
Module ParseResult.
Record t : Type := { successful : bool; keyFrames : list KeyFrame.t }.
End ParseResult.

(** [operator!=] of [std::vector<uint8_t>], negated. *)
Fixpoint vector_eqb (a b : list Z) : bool :=
  match a, b with
  | [], [] => true
  | x :: a', y :: b' => (x =? y) && vector_eqb a' b'
  | _, _ => false
  end.

(* ================================================================== *)
(** * Control flow of [parse] *)

(** The error messages of [parse], one constructor per [RCLCPP_ERROR]
    site, in the order of the source. *)
Inductive diagnostic : Type :=
| StiffnessLineSize (elements : nat)   (* "pos file line has .. elements, but expected" STIFFNESSES_SIZE *)
| StiffnessValue (token : string)      (* "stiffness value '..' is not a valid stiffness value" *)
| PositionLineSize (elements : nat)    (* "pos file line has .. elements, but expected" POSITIONS_SIZE *)
| JointValue (token : string)          (* "joint value '..' is not a valid joint value" *)
| JointVectorsDiffer                   (* "two or more joint positions vectors are not the same!" *)
| DurationValue (token : string)       (* "duration '..' is not a valid duration value" *)
| StiffnessSizeDiffers                 (* "joint positions and joint stiffness vectors have different sizes!" *)
| StiffnessIndexesDiffer.              (* "joint positions and joint stiffness indexes are not the same!" *)

(** The error taxonomy of the design document. *)
Inductive FailureReason : Type :=
| MalformedLine
| InvalidNumericField
| InvalidDuration
| InconsistentJointSet
| StiffnessPositionMismatch.

(** Which entry of the taxonomy each message of the code reports. *)
Definition reason_of (d : diagnostic) : FailureReason :=
  match d with
  | StiffnessLineSize _ | PositionLineSize _ => MalformedLine
  | StiffnessValue _ | JointValue _ => InvalidNumericField
  | DurationValue _ => InvalidDuration
  | JointVectorsDiffer => InconsistentJointSet
  | StiffnessSizeDiffers | StiffnessIndexesDiffer => StiffnessPositionMismatch
  end.

(** Exceptions that [parse] does not catch. *)
Inductive exception : Type :=
| std_out_of_range (what : string).

(** How a block of [parse] ends. *)
Inductive flow (A : Type) : Type :=
| Next (a : A)                                 (* control goes on, with [a] *)
| Return (d : diagnostic) (r : ParseResult.t)  (* message [d], then [return parseResult;] *)
| Throw (e : exception)                        (* an exception leaves [parse] *)
| Undefined.                                   (* undefined behaviour *)

Arguments Next {A} a.
Arguments Return {A} d r.
Arguments Throw {A} e.
Arguments Undefined {A}.

Definition bind {A B : Type} (c : flow A) (k : A -> flow B) : flow B :=
  match c with
  | Next a => k a
  | Return d r => Return d r
  | Throw e => Throw e
  | Undefined => Undefined
  end.

Notation "x <- c ;; k" := (bind c (fun x => k))
  (at level 61, c at next level, right associativity).
Notation "' pat <- c ;; k" := (bind c (fun x => match x with pat => k end))
  (at level 61, pat pattern, c at next level, right associativity).

(* ================================================================== *)
(** * The parser *)

(** The local variables of [parse] that live across lines. *)
Record state : Type := {
  keyFrames : list KeyFrame.t;             (* parseResult.keyFrames *)
  keyFrameTime : Z;                        (* unsigned *)
  jointStiffnesses : JointStiffnesses.t;
  customStiffnesses : bool;
  firstPosLine : bool;
  prevJointPositions : JointPositions.t }.

(** The state at the entry of the loop over the lines. *)
Definition initial : state := {|
  keyFrames := [];
  keyFrameTime := 0;
  jointStiffnesses := JointStiffnesses.empty;
  customStiffnesses := false;
  firstPosLine := true;
  prevJointPositions := JointPositions.empty |}.

Definition set_jointStiffnesses (st : state) (js : JointStiffnesses.t) : state :=
  {| keyFrames := keyFrames st; keyFrameTime := keyFrameTime st;
     jointStiffnesses := js; customStiffnesses := customStiffnesses st;
     firstPosLine := firstPosLine st;
     prevJointPositions := prevJointPositions st |}.

Definition set_customStiffnesses (st : state) (b : bool) : state :=
  {| keyFrames := keyFrames st; keyFrameTime := keyFrameTime st;
     jointStiffnesses := jointStiffnesses st; customStiffnesses := b;
     firstPosLine := firstPosLine st;
     prevJointPositions := prevJointPositions st |}.

Definition set_firstPosLine (st : state) (b : bool) : state :=
  {| keyFrames := keyFrames st; keyFrameTime := keyFrameTime st;
     jointStiffnesses := jointStiffnesses st;
     customStiffnesses := customStiffnesses st; firstPosLine := b;
     prevJointPositions := prevJointPositions st |}.

Definition set_keyFrameTime (st : state) (t : Z) : state :=
  {| keyFrames := keyFrames st; keyFrameTime := t;
     jointStiffnesses := jointStiffnesses st;
     customStiffnesses := customStiffnesses st;
     firstPosLine := firstPosLine st;
     prevJointPositions := prevJointPositions st |}.

(** [parseResult.successful = false; return parseResult;] after the
    message [d]: the keyframes pushed so far stay in the result. *)
Definition fail {A : Type} (st : state) (d : diagnostic) : flow A :=
  Return d {| ParseResult.successful := false;
              ParseResult.keyFrames := keyFrames st |}.

(** A [printf] format without a conversion specification: each '%' is
    followed by a second one, and the two print one '%'. *)
Fixpoint printf_literal (format : string) : bool :=
  match format with
  | EmptyString => true
  | String c rest =>
      if Ascii.eqb c "%" then
        match rest with
        | String c' rest' => Ascii.eqb c' "%" && printf_literal rest'
        | EmptyString => false
        end
      else printf_literal rest
  end.

(** [RCLCPP_ERROR(logger, format)], the format being the only argument
    after the logger, and the logger letting errors through as it does by
    default: the message is formatted as [printf] does, and a conversion
    specification in it has no argument to convert, which is undefined
    behaviour.  The macros [RCLCPP_..._STREAM] pass their text as the
    argument of a constant format and are not concerned. *)
Definition RCLCPP_ERROR (format : string) : flow unit :=
  if printf_literal format then Next tt else Undefined.

(** The three formats that [parse] builds around a token. *)
Definition stiffness_value_message (stiffness_string : string) : string :=
  "stiffness value '" ++ stiffness_string ++
  "' is not a valid stiffness value (cannot be converted to float)".

Definition joint_value_message (position_deg_string : string) : string :=
  "joint value '" ++ position_deg_string ++
  "' is not a valid joint value (cannot be converted to float)".

Definition duration_message (duration_string : string) : string :=
  "duration '" ++ duration_string ++
  "' is not a valid duration value (cannot be converted to int)".

Section Parser.

(** [nao_lola_command_msgs::msg::JointIndexes::NUMJOINTS], a constant of
    the message package. *)
Variable NUMJOINTS : nat.

Definition POSITIONS_SIZE : nat := NUMJOINTS + 2.
Definition STIFFNESSES_SIZE : nat := NUMJOINTS + 1.

(** The loop over the value tokens of a stiffness line: [n] iterations
    are left and the counter is [i]. *)
Fixpoint stiffnesses_loop (splitted_line : list string) (n i : nat)
    (st : state) : flow state :=
  match n with
  | O => Next st
  | S n' =>
      match nth_error splitted_line i with
      | None => Throw (std_out_of_range "vector::at")
      | Some stiffness_string =>
          if (stiffness_string =? "-")%string then
            stiffnesses_loop splitted_line n' (S i) st
          else
            match stof stiffness_string with
            | Converted stiffness_float =>
                stiffnesses_loop splitted_line n' (S i)
                  (set_jointStiffnesses st
                     (JointStiffnesses.push_back (jointStiffnesses st)
                        (uint8_t (Z.of_nat i - 1)) stiffness_float))
            | invalid_argument =>
                _ <- RCLCPP_ERROR (stiffness_value_message stiffness_string) ;;
                fail st (StiffnessValue stiffness_string)
            | out_of_range => Throw (std_out_of_range "stof")
            end
      end
  end.

(** The branch of a line that starts with '$'. *)
Definition stiffness_directive (st : state) (line : string) : flow state :=
  let splitted_line := split line in
  if negb (List.length splitted_line =? STIFFNESSES_SIZE)%nat then
    fail st (StiffnessLineSize (List.length splitted_line))
  else
    stiffnesses_loop splitted_line NUMJOINTS 1 (set_customStiffnesses st true).

(** The loop over the value tokens of a position line. *)
Fixpoint positions_loop (splitted_line : list string) (n i : nat)
    (st : state) (jointPositions : JointPositions.t)
    : flow (state * JointPositions.t) :=
  match n with
  | O => Next (st, jointPositions)
  | S n' =>
      match nth_error splitted_line i with
      | None => Throw (std_out_of_range "vector::at")
      | Some position_deg_string =>
          if (position_deg_string =? "-")%string then
            positions_loop splitted_line n' (S i) st jointPositions
          else
            match stof position_deg_string with
            | Converted position_deg =>
                let position_rad := deg2rad position_deg in
                let index := uint8_t (Z.of_nat i - 1) in
                positions_loop splitted_line n' (S i)
                  (if customStiffnesses st then st
                   else set_jointStiffnesses st
                          (JointStiffnesses.push_back (jointStiffnesses st)
                             index full_stiffness))
                  (JointPositions.push_back jointPositions index position_rad)
            | invalid_argument =>
                _ <- RCLCPP_ERROR (joint_value_message position_deg_string) ;;
                fail st (JointValue position_deg_string)
            | out_of_range => Throw (std_out_of_range "stof")
            end
      end
  end.

(** The loop that compares the indexes of the positions with those of the
    stiffnesses, one by one. *)
Fixpoint indexes_loop (st : state) (ps ss : list Z) : flow unit :=
  match ps with
  | [] => Next tt
  | p :: ps' =>
      match ss with
      | [] => Throw (std_out_of_range "vector::at")
      | s :: ss' =>
          if p =? s then indexes_loop st ps' ss'
          else fail st StiffnessIndexesDiffer
      end
  end.

(** The branch of a line that starts with '!'. *)
Definition position_directive (st : state) (line : string) : flow state :=
  let splitted_line := split line in
  if negb (List.length splitted_line =? POSITIONS_SIZE)%nat then
    fail st (PositionLineSize (List.length splitted_line))
  else
    '(st, jointPositions) <-
       positions_loop splitted_line NUMJOINTS 1 st JointPositions.empty ;;
    st <- (if firstPosLine st then Next (set_firstPosLine st false)
           else if vector_eqb (JointPositions.indexes jointPositions)
                     (JointPositions.indexes (prevJointPositions st))
                then Next st
                else fail st JointVectorsDiffer) ;;
    let duration_string := last splitted_line EmptyString in
    st <- match stoi duration_string with
          | Converted duration =>
              Next (set_keyFrameTime st
                      ((keyFrameTime st + duration) mod UINT_MODULUS))
          | invalid_argument =>
              _ <- RCLCPP_ERROR (duration_message duration_string) ;;
              fail st (DurationValue duration_string)
          | out_of_range => Throw (std_out_of_range "stoi")
          end ;;
    _ <- (if customStiffnesses st then
            if negb (List.length (JointPositions.indexes jointPositions)
                     =? List.length (JointStiffnesses.indexes (jointStiffnesses st)))%nat
            then fail st StiffnessSizeDiffers
            else indexes_loop st (JointPositions.indexes jointPositions)
                   (JointStiffnesses.indexes (jointStiffnesses st))
          else Next tt) ;;
    Next {| keyFrames :=
              keyFrames st ++
              [ {| KeyFrame.absolute_time := keyFrameTime st;
                   KeyFrame.positions := jointPositions;
                   KeyFrame.stiffnesses := jointStiffnesses st |} ];
            keyFrameTime := keyFrameTime st;
            jointStiffnesses := JointStiffnesses.empty;
            customStiffnesses := false;
            firstPosLine := firstPosLine st;
            prevJointPositions := jointPositions |}.

(** One iteration of the loop over the lines. *)
Definition step (st : state) (line : string) : flow state :=
  match front line with
  | None => Undefined
  | Some c =>
      if Ascii.eqb c "$" then stiffness_directive st line
      else if Ascii.eqb c "!" then position_directive st line
      else Next st
  end.

(** The loop over the lines, from the state [st]. *)
Fixpoint lines_loop (st : state) (lines : list string) : flow state :=
  match lines with
  | [] => Next st
  | line :: rest => st' <- step st line ;; lines_loop st' rest
  end.

(** [parser::parse]. *)
Definition parse (lines : list string) : flow ParseResult.t :=
  st <- lines_loop initial lines ;;
  Next {| ParseResult.successful := true;
          ParseResult.keyFrames := keyFrames st |}.

End Parser.

(* ================================================================== *)
(** * Printing a vector of indexes *)

(** [ss << tmp] for an [int]: the decimal digits, after a '-' when the
    number is negative. *)
Definition decimal (tmp : Z) : string := NilZero.string_of_int (Z.to_int tmp).

(** The loop of [vec2str]: each element, then a space. *)
Fixpoint vec2str_loop (vec : list Z) : string :=
  match vec with
  | [] => EmptyString
  | elem :: rest => String.append (decimal elem)
                      (String.append " " (vec2str_loop rest))
  end.

(** [parser::vec2str]: the text written to the stream. *)
Definition vec2str (vec : list Z) : string :=
  String.append "[ " (String.append (vec2str_loop vec) "]").

(* ================================================================== *)
(** * Vocabulary of the statements

    Everything below is read off a line of text alone; the theorems relate
    it to what [parse] computes. *)

(** The unset sentinel. *)
Definition unset (token : string) : bool := (token =? "-")%string.

(** A value token that [parse] takes: the sentinel, or a token that
    [std::stof] converts. *)
Definition acceptable (token : string) : bool :=
  unset token ||
  match stof token with Converted _ => true | _ => false end.

(** The first of a list of fields that [parse] does not take: it is where
    the loop over the value tokens ends. *)
Definition first_rejected (fields : list string) : option string :=
  find (fun t => negb (acceptable t)) fields.

(** The tokens of a list of fields that are set. *)
Definition set_tokens (fields : list string) : list string :=
  filter (fun t => negb (unset t)) fields.

(** The values [std::stof] gives for the fields that are set. *)
Fixpoint converted_values (fields : list string) : list spec_float :=
  match fields with
  | [] => []
  | t :: fields' =>
      if unset t then converted_values fields'
      else match stof t with
           | Converted x => x :: converted_values fields'
           | _ => converted_values fields'
           end
  end.

(** The joint indexes of the fields that are set, the first field being
    token number [i] of its line: token [i] drives joint [i - 1]. *)
Fixpoint set_indexes (i : nat) (fields : list string) : list Z :=
  match fields with
  | [] => []
  | t :: fields' =>
      if unset t then set_indexes (S i) fields'
      else uint8_t (Z.of_nat i - 1) :: set_indexes (S i) fields'
  end.

(** Is the first character of the line [c]? *)
Definition starts_with (c : ascii) (line : string) : bool :=
  match front line with
  | Some c' => Ascii.eqb c' c
  | None => false
  end.

Definition is_position : string -> bool := starts_with "!".
Definition is_stiffness : string -> bool := starts_with "$".

(** The integer [std::stoi] reads from the last token of a line. *)
Definition duration_of (line : string) : Z :=
  match stoi (last (split line) EmptyString) with
  | Converted d => d
  | _ => 0
  end.

(** The durations of the position directives of an input, in order. *)
Definition durations (lines : list string) : list Z :=
  map duration_of (filter is_position lines).

Fixpoint sum (ds : list Z) : Z :=
  match ds with
  | [] => 0
  | d :: ds' => d + sum ds'
  end.

(** A sequence of times that never goes down. *)
Fixpoint nondecreasing (ts : list Z) : Prop :=
  match ts with
  | [] => True
  | t :: ts' =>
      match ts' with
      | [] => True
      | t' :: _ => t <= t'
      end /\ nondecreasing ts'
  end.

Definition times (kfs : list KeyFrame.t) : list Z :=
  map KeyFrame.absolute_time kfs.

(** The fields that a loop of [n] iterations from token [i] visits. *)
Definition visited (toks : list string) (n i : nat) : list string :=
  firstn n (skipn i toks).

(** The positions message after the fields have been read into [jp]. *)
Definition scanned_positions (jp : JointPositions.t) (i : nat)
    (fields : list string) : JointPositions.t :=
  {| JointPositions.indexes := JointPositions.indexes jp ++ set_indexes i fields;
     JointPositions.positions :=
       JointPositions.positions jp ++ map deg2rad (converted_values fields) |}.

(** The stiffness message after the fields of a stiffness line have been
    read into [js]. *)
Definition scanned_stiffnesses (js : JointStiffnesses.t) (i : nat)
    (fields : list string) : JointStiffnesses.t :=
  {| JointStiffnesses.indexes := JointStiffnesses.indexes js ++ set_indexes i fields;
     JointStiffnesses.stiffnesses :=
       JointStiffnesses.stiffnesses js ++ converted_values fields |}.

(** The stiffness message after the fields of a position line have been
    read with no custom stiffness: full stiffness for each field set. *)
Definition implicit_stiffnesses (js : JointStiffnesses.t) (i : nat)
    (fields : list string) : JointStiffnesses.t :=
  {| JointStiffnesses.indexes := JointStiffnesses.indexes js ++ set_indexes i fields;
     JointStiffnesses.stiffnesses :=
       JointStiffnesses.stiffnesses js ++
       repeat full_stiffness (List.length (set_indexes i fields)) |}.

(** The state after the loop of a position line. *)
Definition positions_loop_state (st : state) (i : nat) (fields : list string)
  : state :=
  if customStiffnesses st then st
  else set_jointStiffnesses st
         (implicit_stiffnesses (jointStiffnesses st) i fields).

(** The state after a position directive has pushed its keyframe. *)
Definition emitted (st : state) (t : Z) (jp : JointPositions.t)
    (js : JointStiffnesses.t) : state :=
  {| keyFrames :=
       keyFrames st ++
       [ {| KeyFrame.absolute_time := t;
            KeyFrame.positions := jp;
            KeyFrame.stiffnesses := js |} ];
     keyFrameTime := t;
     jointStiffnesses := JointStiffnesses.empty;
     customStiffnesses := false;
     firstPosLine := false;
     prevJointPositions := jp |}.

(** Partial sums of durations, from the time [t]. *)
Fixpoint partial_sums (t : Z) (ds : list Z) : list Z :=
  match ds with
  | [] => []
  | d :: ds' => (t + d) :: partial_sums (t + d) ds'
  end.

(** The stiffness directives that are pending after the lines: those
    since the last position directive, [acc] being the ones seen before. *)
Fixpoint pending_from (acc lines : list string) : list string :=
  match lines with
  | [] => acc
  | l :: rest =>
      if is_position l then pending_from [] rest
      else if is_stiffness l then pending_from (acc ++ [l]) rest
      else pending_from acc rest
  end.

Definition pending (lines : list string) : list string := pending_from [] lines.

(** A line that is neither empty nor a directive. *)
Definition ignored (line : string) : bool :=
  match front line with
  | Some c => negb (Ascii.eqb c "$") && negb (Ascii.eqb c "!")
  | None => false
  end.

(** The real number that a finite floating-point number denotes. *)
Definition real_value (x : spec_float) : R :=
  match x with
  | S754_finite s m e =>
      ((if s then -1 else 1) * IZR (Zpos m) * powerRZ 2 e)%R
  | _ => 0%R
  end.

(** A string without white space. *)
Fixpoint no_space (s : string) : bool :=
  match s with
  | EmptyString => true
  | String c s' => negb (isspace c) && no_space s'
  end.

(** What a token is: a non-empty string without white space. *)
Definition is_token (t : string) : bool :=
  negb (t =? EmptyString)%string && no_space t.

(** The result that [parse] hands back to its caller, when it returns. *)
Definition returned (o : flow ParseResult.t) : option ParseResult.t :=
  match o with
  | Next r => Some r
  | Return _ r => Some r
  | Throw _ => None
  | Undefined => None
  end.

(** A keyframe whose vectors fit together: the stiffness indexes are the
    position indexes, each vector of values is as long as its vector of
    indexes, and the time is an [unsigned]. *)
Definition well_shaped (kf : KeyFrame.t) : Prop :=
  JointStiffnesses.indexes (KeyFrame.stiffnesses kf) =
    JointPositions.indexes (KeyFrame.positions kf) /\
  List.length (JointPositions.positions (KeyFrame.positions kf)) =
    List.length (JointPositions.indexes (KeyFrame.positions kf)) /\
  List.length (JointStiffnesses.stiffnesses (KeyFrame.stiffnesses kf)) =
    List.length (JointStiffnesses.indexes (KeyFrame.stiffnesses kf)) /\
  0 <= KeyFrame.absolute_time kf < UINT_MODULUS.

Section Vocabulary.

Variable NUMJOINTS : nat.

(** The value tokens of a directive: tokens 1 .. NUMJOINTS. *)
Definition value_fields (line : string) : list string :=
  firstn NUMJOINTS (skipn 1 (split line)).

(** The index sequence of a directive. *)
Definition line_indexes (line : string) : list Z :=
  set_indexes 1 (value_fields line).

(** A stiffness directive that [parse] takes: the token count is right
    and every value token is acceptable. *)
Definition well_formed_stiffness (line : string) : bool :=
  is_stiffness line &&
  (List.length (split line) =? STIFFNESSES_SIZE NUMJOINTS)%nat &&
  forallb acceptable (value_fields line).

(** A position directive whose tokens [parse] takes: the token count is
    right and every value token is acceptable. *)
Definition well_formed_position (line : string) : bool :=
  is_position line &&
  (List.length (split line) =? POSITIONS_SIZE NUMJOINTS)%nat &&
  forallb acceptable (value_fields line).



(** The positions message that a position directive builds. *)
Definition line_positions (line : string) : JointPositions.t :=
  scanned_positions JointPositions.empty 1 (value_fields line).

(** The stiffness message of the keyframe that a position directive
    emits from the state [st]. *)
Definition line_stiffnesses (st : state) (line : string) : JointStiffnesses.t :=
  if customStiffnesses st then jointStiffnesses st
  else implicit_stiffnesses (jointStiffnesses st) 1 (value_fields line).

(** The state after a stiffness directive. *)
Definition accumulated (st : state) (line : string) : state :=
  set_jointStiffnesses (set_customStiffnesses st true)
    (scanned_stiffnesses (jointStiffnesses st) 1 (value_fields line)).

(** The three ways a line is accepted. *)
Variant accepted (st : state) (l : string) (st' : state) : Prop :=
| accepted_ignored :
    is_position l = false -> is_stiffness l = false -> st' = st ->
    accepted st l st'
| accepted_stiffness :
    is_position l = false -> is_stiffness l = true ->
    List.length (split l) = STIFFNESSES_SIZE NUMJOINTS ->
    forallb acceptable (value_fields l) = true ->
    st' = accumulated st l ->
    accepted st l st'
| accepted_position (d : Z) :
    is_position l = true ->
    List.length (split l) = POSITIONS_SIZE NUMJOINTS ->
    forallb acceptable (value_fields l) = true ->
    (firstPosLine st = true \/
     line_indexes l = JointPositions.indexes (prevJointPositions st)) ->
    (customStiffnesses st = true ->
     line_indexes l = JointStiffnesses.indexes (jointStiffnesses st)) ->
    stoi (last (split l) EmptyString) = Converted d ->
    st' = emitted st ((keyFrameTime st + d) mod UINT_MODULUS)
            (line_positions l) (line_stiffnesses st l) ->
    accepted st l st'.

End Vocabulary.

(* ================================================================== *)
(** * Sample inputs for a robot of 25 joints *)

(** The joint count of the robot's message definition (25 joints). *)
Definition NAO_NUMJOINTS : nat := 25.

Module Sample.

(** Joints 0 and 1 at 90 and -90 degrees, reached in 500 ms. *)
Definition pose_90 : string :=
  "! 90 -90 - - - - - - - - - - - - - - - - - - - - - - - 500".

(** A position line with too few tokens. *)
Definition short_pose : string := "! 10 20".

(** Joint 0 given as a number followed by letters. *)
Definition pose_trailing : string :=
  "! 1.5abc - - - - - - - - - - - - - - - - - - - - - - - - 100".

(** Joint 0 given as a literal beyond the range of [float]. *)
Definition pose_huge : string :=
  "! 1e40 - - - - - - - - - - - - - - - - - - - - - - - - 100".

(** Joint 0 given as letters. *)
Definition pose_letters : string :=
  "! abc - - - - - - - - - - - - - - - - - - - - - - - - 100".

(** Joint 0 at 0 degrees, with several durations. *)
Definition pose_300 : string :=
  "! 0 - - - - - - - - - - - - - - - - - - - - - - - - 300".
Definition pose_200 : string :=
  "! 0 - - - - - - - - - - - - - - - - - - - - - - - - 200".
Definition pose_back_200 : string :=
  "! 0 - - - - - - - - - - - - - - - - - - - - - - - - -200".
Definition pose_int_max : string :=
  "! 0 - - - - - - - - - - - - - - - - - - - - - - - - 2147483647".

(** Joint 1 alone, at 45 degrees. *)
Definition pose_joint1 : string :=
  "! - 45 - - - - - - - - - - - - - - - - - - - - - - - 100".

(** Stiffness 0.5 and 0.25 for joints 0 and 1. *)
Definition stiffness_01 : string :=
  "$ 0.5 0.25 - - - - - - - - - - - - - - - - - - - - - - -".

(** Stiffness 0.5 for joint 0 alone. *)
Definition stiffness_0 : string :=
  "$ 0.5 - - - - - - - - - - - - - - - - - - - - - - - -".

(** A stiffness line whose second value is letters. *)
Definition stiffness_letters : string :=
  "$ - abc - - - - - - - - - - - - - - - - - - - - - - -".

Definition comment : string := "# a comment".

(** The numbers that appear in the results. *)
Definition half_pi : spec_float := S754_finite false 13176795 (-23).
Definition minus_half_pi : spec_float := S754_finite true 13176795 (-23).
Definition one : spec_float := S754_finite false 8388608 (-23).
Definition one_and_a_half : spec_float := S754_finite false 12582912 (-23).
Definition one_half : spec_float := S754_finite false 8388608 (-24).
Definition one_quarter : spec_float := S754_finite false 8388608 (-25).

(** The keyframe of [pose_90] read first, with no stiffness line. *)
Definition keyframe_90 : KeyFrame.t :=
  {| KeyFrame.absolute_time := 500;
     KeyFrame.positions :=
       {| JointPositions.indexes := [0; 1];
          JointPositions.positions := [half_pi; minus_half_pi] |};
     KeyFrame.stiffnesses :=
       {| JointStiffnesses.indexes := [0; 1];
          JointStiffnesses.stiffnesses := [one; one] |} |}.

End Sample.

(* ================================================================== *)
(** * Basic facts *)

Lemma vector_eqb_eq (a b : list Z) : vector_eqb a b = true <-> a = b.
Proof.
  revert b; induction a as [|x a IH]; intros [|y b]; simpl;
    try (split; intro; congruence).
  rewrite andb_true_iff, Z.eqb_eq, IH. split.
  - intros [-> ->]; reflexivity.
  - intros H; injection H; auto.
Qed.

Lemma vector_eqb_neq (a b : list Z) : vector_eqb a b = false <-> a <> b.
Proof.
  rewrite <- vector_eqb_eq. destruct (vector_eqb a b); split; congruence.
Qed.

Lemma bind_Next {A B : Type} (c : flow A) (k : A -> flow B) (b : B) :
  bind c k = Next b -> exists a, c = Next a /\ k a = Next b.
Proof. destruct c; simpl; intros H; try discriminate. eauto. Qed.

Lemma bind_Return {A B : Type} (c : flow A) (k : A -> flow B) d r :
  bind c k = Return d r ->
  c = Return d r \/ exists a, c = Next a /\ k a = Return d r.
Proof.
  destruct c; simpl; intros H; try discriminate; [right; eauto | left; congruence].
Qed.

(** ** Formats *)

(** A message that is logged with a computed format, then the failure. *)
Lemma logged_fail {A : Type} (format : string) (st : state) (d : diagnostic) :
  (_ <- RCLCPP_ERROR format ;; fail st d : flow A) =
  if printf_literal format then fail st d else Undefined.
Proof. unfold RCLCPP_ERROR. destruct (printf_literal format); reflexivity. Qed.

(** Text without a conversion specification after a format does not
    change what the format is, provided it does not start with '%'. *)
Lemma printf_literal_app_r (c : ascii) (suffix : string) :
  Ascii.eqb c "%" = false -> printf_literal suffix = true ->
  forall t, printf_literal (t ++ String c suffix) = printf_literal t.
Proof.
  intros Hc Hs.
  assert (H : forall t,
             printf_literal (t ++ String c suffix) = printf_literal t /\
             forall a, printf_literal (String a t ++ String c suffix) =
                       printf_literal (String a t)).
  { induction t as [|b t [IH1 IH2]].
    - split; [simpl; rewrite Hc; exact Hs|].
      intros a. simpl. rewrite Hc.
      destruct (Ascii.eqb a "%"); [reflexivity | exact Hs].
    - split; [apply IH2|].
      intros a. change (String a (String b t) ++ String c suffix)%string
        with (String a (String b (t ++ String c suffix)))%string.
      cbn [printf_literal]. destruct (Ascii.eqb a "%").
      + rewrite IH1. reflexivity.
      + apply IH2. }
  intros t. apply H.
Qed.

(** Each of the three computed formats is as good as its token. *)
Lemma stiffness_value_message_literal tok :
  printf_literal (stiffness_value_message tok) = printf_literal tok.
Proof.
  unfold stiffness_value_message. cbn [String.append printf_literal Ascii.eqb Bool.eqb].
  apply printf_literal_app_r; reflexivity.
Qed.

Lemma joint_value_message_literal tok :
  printf_literal (joint_value_message tok) = printf_literal tok.
Proof.
  unfold joint_value_message. cbn [String.append printf_literal Ascii.eqb Bool.eqb].
  apply printf_literal_app_r; reflexivity.
Qed.


Lemma skipn_nth_error {A : Type} (l : list A) (i : nat) (x : A) :
  nth_error l i = Some x -> skipn i l = x :: skipn (S i) l.
Proof.
  revert l; induction i as [|i IH]; intros [|y l] H; try discriminate.
  - simpl in H. injection H as ->. reflexivity.
  - simpl in H. apply IH in H. exact H.
Qed.

Lemma skipn_nth_error_None {A : Type} (l : list A) (i : nat) :
  nth_error l i = None -> skipn i l = [].
Proof.
  intros H. apply nth_error_None in H. apply skipn_all2. exact H.
Qed.

Lemma visited_S toks n i t :
  nth_error toks i = Some t ->
  visited toks (S n) i = t :: visited toks n (S i).
Proof.
  intros H. unfold visited. rewrite (skipn_nth_error _ _ _ H). reflexivity.
Qed.

Lemma visited_full toks n i :
  (i + n <= List.length toks)%nat -> List.length (visited toks n i) = n.
Proof.
  intros H. unfold visited. rewrite length_firstn, length_skipn. lia.
Qed.

Lemma converted_values_acceptable fields :
  forallb acceptable fields = true ->
  Forall2 (fun t x => stof t = Converted x)
    (set_tokens fields) (converted_values fields).
Proof.
  induction fields as [|t fields IH]; simpl; intros H.
  - constructor.
  - apply andb_true_iff in H as [Ht H]. unfold set_tokens in *. simpl.
    unfold acceptable in Ht. destruct (unset t); simpl.
    + auto.
    + destruct (stof t) eqn:E; try discriminate. constructor; auto.
Qed.

(* ================================================================== *)
(** * The loops over the value tokens *)

Lemma set_jointStiffnesses_same st :
  set_jointStiffnesses st (jointStiffnesses st) = st.
Proof. destruct st; reflexivity. Qed.

Lemma scanned_positions_nil jp i : scanned_positions jp i [] = jp.
Proof. destruct jp; unfold scanned_positions; simpl; rewrite !app_nil_r; reflexivity. Qed.

Lemma scanned_stiffnesses_nil js i : scanned_stiffnesses js i [] = js.
Proof. destruct js; unfold scanned_stiffnesses; simpl; rewrite !app_nil_r; reflexivity. Qed.

Lemma implicit_stiffnesses_nil js i : implicit_stiffnesses js i [] = js.
Proof. destruct js; unfold implicit_stiffnesses; simpl; rewrite !app_nil_r; reflexivity. Qed.

Lemma scanned_positions_unset jp i t fields :
  unset t = true ->
  scanned_positions jp i (t :: fields) = scanned_positions jp (S i) fields.
Proof. intros H; unfold scanned_positions; simpl; rewrite H; reflexivity. Qed.

Lemma scanned_positions_set jp i t x fields :
  unset t = false -> stof t = Converted x ->
  scanned_positions jp i (t :: fields) =
  scanned_positions
    (JointPositions.push_back jp (uint8_t (Z.of_nat i - 1)) (deg2rad x))
    (S i) fields.
Proof.
  intros H E; unfold scanned_positions; simpl; rewrite H, E; simpl.
  rewrite <- !app_assoc; reflexivity.
Qed.

Lemma scanned_stiffnesses_unset js i t fields :
  unset t = true ->
  scanned_stiffnesses js i (t :: fields) = scanned_stiffnesses js (S i) fields.
Proof. intros H; unfold scanned_stiffnesses; simpl; rewrite H; reflexivity. Qed.

Lemma scanned_stiffnesses_set js i t x fields :
  unset t = false -> stof t = Converted x ->
  scanned_stiffnesses js i (t :: fields) =
  scanned_stiffnesses
    (JointStiffnesses.push_back js (uint8_t (Z.of_nat i - 1)) x) (S i) fields.
Proof.
  intros H E; unfold scanned_stiffnesses; simpl; rewrite H, E; simpl.
  rewrite <- !app_assoc; reflexivity.
Qed.

Lemma implicit_stiffnesses_unset js i t fields :
  unset t = true ->
  implicit_stiffnesses js i (t :: fields) = implicit_stiffnesses js (S i) fields.
Proof. intros H; unfold implicit_stiffnesses; simpl; rewrite H; reflexivity. Qed.

Lemma implicit_stiffnesses_set js i t fields :
  unset t = false ->
  implicit_stiffnesses js i (t :: fields) =
  implicit_stiffnesses
    (JointStiffnesses.push_back js (uint8_t (Z.of_nat i - 1)) full_stiffness)
    (S i) fields.
Proof.
  intros H; unfold implicit_stiffnesses; simpl; rewrite H; simpl.
  rewrite <- !app_assoc; reflexivity.
Qed.

Lemma visited_None toks n i :
  nth_error toks i = None -> visited toks n i = [].
Proof.
  intros H. unfold visited. rewrite (skipn_nth_error_None _ _ H).
  apply firstn_nil.
Qed.

(** A position loop over acceptable fields runs to its end. *)
Lemma positions_loop_accepts toks n : forall i st jp,
  List.length (visited toks n i) = n ->
  forallb acceptable (visited toks n i) = true ->
  positions_loop toks n i st jp =
  Next (positions_loop_state st i (visited toks n i),
        scanned_positions jp i (visited toks n i)).
Proof.
  induction n as [|n IH]; intros i st jp Hlen Hok.
  - unfold visited, positions_loop_state; simpl.
    rewrite scanned_positions_nil, implicit_stiffnesses_nil,
      set_jointStiffnesses_same.
    destruct (customStiffnesses st); reflexivity.
  - destruct (nth_error toks i) as [t|] eqn:Ht.
    2:{ rewrite (visited_None _ _ _ Ht) in Hlen. discriminate. }
    rewrite (visited_S _ _ _ _ Ht) in *. simpl in Hok, Hlen.
    injection Hlen as Hlen.
    apply andb_true_iff in Hok as [Hacc Hok].
    simpl. rewrite Ht. unfold acceptable in Hacc.
    fold (unset t). destruct (unset t) eqn:Hu.
    + rewrite IH by auto.
      rewrite scanned_positions_unset by exact Hu.
      unfold positions_loop_state.
      rewrite implicit_stiffnesses_unset by exact Hu. reflexivity.
    + simpl in Hacc. destruct (stof t) as [x| |] eqn:E; try discriminate.
      rewrite IH by auto.
      rewrite (scanned_positions_set _ _ _ _ _ Hu E).
      unfold positions_loop_state.
      rewrite (implicit_stiffnesses_set _ _ _ _ Hu).
      destruct (customStiffnesses st) eqn:Hc; simpl; rewrite ?Hc; reflexivity.
Qed.

(** A position loop that runs to its end has read acceptable fields, and
    there were enough tokens. *)
Lemma positions_loop_Next toks n : forall i st jp res,
  positions_loop toks n i st jp = Next res ->
  List.length (visited toks n i) = n /\
  forallb acceptable (visited toks n i) = true.
Proof.
  induction n as [|n IH]; intros i st jp res H.
  - split; reflexivity.
  - simpl in H. destruct (nth_error toks i) as [t|] eqn:Ht; try discriminate.
    rewrite (visited_S _ _ _ _ Ht). simpl. unfold acceptable at 1.
    fold (unset t) in H. destruct (unset t) eqn:Hu; simpl.
    + apply IH in H as [H1 H2]. auto.
    + destruct (stof t) as [x| |] eqn:E; try discriminate.
      * apply IH in H as [H1 H2]. auto.
      * rewrite logged_fail in H. destruct (printf_literal _); discriminate.
Qed.

(** The same two facts for the loop of a stiffness line. *)
Lemma stiffnesses_loop_accepts toks n : forall i st,
  List.length (visited toks n i) = n ->
  forallb acceptable (visited toks n i) = true ->
  stiffnesses_loop toks n i st =
  Next (set_jointStiffnesses st
          (scanned_stiffnesses (jointStiffnesses st) i (visited toks n i))).
Proof.
  induction n as [|n IH]; intros i st Hlen Hok.
  - unfold visited; simpl.
    rewrite scanned_stiffnesses_nil, set_jointStiffnesses_same. reflexivity.
  - destruct (nth_error toks i) as [t|] eqn:Ht.
    2:{ rewrite (visited_None _ _ _ Ht) in Hlen. discriminate. }
    rewrite (visited_S _ _ _ _ Ht) in *. simpl in Hok, Hlen.
    injection Hlen as Hlen.
    apply andb_true_iff in Hok as [Hacc Hok].
    simpl. rewrite Ht. unfold acceptable in Hacc.
    fold (unset t). destruct (unset t) eqn:Hu.
    + rewrite IH by auto.
      rewrite scanned_stiffnesses_unset by exact Hu. reflexivity.
    + simpl in Hacc. destruct (stof t) as [x| |] eqn:E; try discriminate.
      rewrite IH by auto.
      rewrite (scanned_stiffnesses_set _ _ _ _ _ Hu E). reflexivity.
Qed.

Lemma stiffnesses_loop_Next toks n : forall i st res,
  stiffnesses_loop toks n i st = Next res ->
  List.length (visited toks n i) = n /\
  forallb acceptable (visited toks n i) = true.
Proof.
  induction n as [|n IH]; intros i st res H.
  - split; reflexivity.
  - simpl in H. destruct (nth_error toks i) as [t|] eqn:Ht; try discriminate.
    rewrite (visited_S _ _ _ _ Ht). simpl. unfold acceptable at 1.
    fold (unset t) in H. destruct (unset t) eqn:Hu; simpl.
    + apply IH in H as [H1 H2]. auto.
    + destruct (stof t) as [x| |] eqn:E; try discriminate.
      * apply IH in H as [H1 H2]. auto.
      * rewrite logged_fail in H. destruct (printf_literal _); discriminate.
Qed.

Lemma indexes_loop_spec st ps : forall ss,
  List.length ps = List.length ss ->
  indexes_loop st ps ss =
  if vector_eqb ps ss then Next tt else fail st StiffnessIndexesDiffer.
Proof.
  induction ps as [|p ps IH]; intros [|s ss] Hlen; try discriminate.
  - reflexivity.
  - simpl. destruct (p =? s); simpl; [apply IH; auto | reflexivity].
Qed.

(* ================================================================== *)
(** * One directive *)

Section Directives.

Variable NUMJOINTS : nat.

Local Abbreviation fields := (value_fields NUMJOINTS).
Local Abbreviation indexes_of := (line_indexes NUMJOINTS).

Lemma line_positions_indexes line :
  JointPositions.indexes (line_positions NUMJOINTS line) = indexes_of line.
Proof. reflexivity. Qed.

Lemma fields_length_position line :
  List.length (split line) = POSITIONS_SIZE NUMJOINTS ->
  List.length (fields line) = NUMJOINTS.
Proof.
  intros H. apply visited_full. rewrite H. unfold POSITIONS_SIZE. lia.
Qed.

Lemma fields_length_stiffness line :
  List.length (split line) = STIFFNESSES_SIZE NUMJOINTS ->
  List.length (fields line) = NUMJOINTS.
Proof.
  intros H. apply visited_full. rewrite H. unfold STIFFNESSES_SIZE. lia.
Qed.

(** What a position directive does once its tokens are known to be
    acceptable: the checks that remain, in the order of the source. *)
Lemma position_directive_cases st line :
  List.length (split line) = POSITIONS_SIZE NUMJOINTS ->
  forallb acceptable (fields line) = true ->
  position_directive NUMJOINTS st line =
  if negb (firstPosLine st) &&
     negb (vector_eqb (indexes_of line)
             (JointPositions.indexes (prevJointPositions st)))
  then fail st JointVectorsDiffer
  else
    match stoi (last (split line) EmptyString) with
    | invalid_argument =>
        _ <- RCLCPP_ERROR (duration_message (last (split line) EmptyString)) ;;
        fail st (DurationValue (last (split line) EmptyString))
    | out_of_range => Throw (std_out_of_range "stoi")
    | Converted d =>
        let t := (keyFrameTime st + d) mod UINT_MODULUS in
        if customStiffnesses st then
          if negb (List.length (indexes_of line) =?
                   List.length (JointStiffnesses.indexes (jointStiffnesses st)))%nat
          then fail st StiffnessSizeDiffers
          else if vector_eqb (indexes_of line)
                    (JointStiffnesses.indexes (jointStiffnesses st))
               then Next (emitted st t (line_positions NUMJOINTS line) (jointStiffnesses st))
               else fail st StiffnessIndexesDiffer
        else
          Next (emitted st t (line_positions NUMJOINTS line)
                  (implicit_stiffnesses (jointStiffnesses st) 1 (fields line)))
    end.
Proof.
  intros Hlen Hok. unfold position_directive.
  rewrite Hlen, Nat.eqb_refl. cbn [negb].
  rewrite positions_loop_accepts
    by (auto; apply fields_length_position; exact Hlen).
  unfold line_positions, line_indexes, value_fields in *.
  change (firstn NUMJOINTS (skipn 1 (split line)))
    with (visited (split line) NUMJOINTS 1) in *.
  generalize dependent (visited (split line) NUMJOINTS 1). intros F _.
  generalize (last (split line) EmptyString). intros L.
  unfold positions_loop_state.
  destruct st as [kfs t js custom first prev].
  destruct custom, first; cbn -[stoi vector_eqb Z.modulo Nat.eqb RCLCPP_ERROR];
    try (destruct (vector_eqb (set_indexes 1 F) (JointPositions.indexes prev));
         cbn -[stoi vector_eqb Z.modulo Nat.eqb RCLCPP_ERROR]; [|reflexivity]);
    destruct (stoi L) as [d| |]; cbn -[vector_eqb Z.modulo Nat.eqb RCLCPP_ERROR];
    try reflexivity;
    try (unfold RCLCPP_ERROR; destruct (printf_literal _); reflexivity);
    destruct (List.length (set_indexes 1 F) =?
              List.length (JointStiffnesses.indexes js))%nat eqn:El;
    cbn -[vector_eqb Z.modulo]; try reflexivity;
    apply Nat.eqb_eq in El; rewrite (indexes_loop_spec _ _ _ El);
    destruct (vector_eqb (set_indexes 1 F) (JointStiffnesses.indexes js));
    reflexivity.
Qed.

Lemma position_directive_Next_tokens st line st' :
  position_directive NUMJOINTS st line = Next st' ->
  List.length (split line) = POSITIONS_SIZE NUMJOINTS /\
  forallb acceptable (fields line) = true.
Proof.
  unfold position_directive. intros H.
  destruct (List.length (split line) =? POSITIONS_SIZE NUMJOINTS)%nat eqn:El;
    [|discriminate].
  apply Nat.eqb_eq in El. split; [exact El|].
  cbn [negb] in H. apply bind_Next in H as [[st1 jp] [H _]].
  apply positions_loop_Next in H as [_ H]. exact H.
Qed.

(** What is known when a position directive goes through. *)
Lemma position_directive_Next st line st' :
  position_directive NUMJOINTS st line = Next st' ->
  List.length (split line) = POSITIONS_SIZE NUMJOINTS /\
  forallb acceptable (fields line) = true /\
  (firstPosLine st = true \/
   indexes_of line = JointPositions.indexes (prevJointPositions st)) /\
  (customStiffnesses st = true ->
   indexes_of line = JointStiffnesses.indexes (jointStiffnesses st)) /\
  exists d,
    stoi (last (split line) EmptyString) = Converted d /\
    st' = emitted st ((keyFrameTime st + d) mod UINT_MODULUS)
            (line_positions NUMJOINTS line) (line_stiffnesses NUMJOINTS st line).
Proof.
  intros H. destruct (position_directive_Next_tokens _ _ _ H) as [Hlen Hok].
  rewrite (position_directive_cases _ _ Hlen Hok) in H.
  split; [exact Hlen|]. split; [exact Hok|].
  unfold line_stiffnesses.
  destruct (firstPosLine st) eqn:Hf;
    destruct (vector_eqb (indexes_of line)
                (JointPositions.indexes (prevJointPositions st))) eqn:Hv;
    cbn [negb andb] in H; try discriminate;
    destruct (stoi (last (split line) EmptyString)) as [d| |];
    try discriminate;
    try (rewrite logged_fail in H; destruct (printf_literal _); discriminate);
    cbv zeta in H;
    destruct (customStiffnesses st) eqn:Hc.
  all: try (destruct (List.length (indexes_of line) =?
                      List.length (JointStiffnesses.indexes (jointStiffnesses st)))%nat;
            cbn [negb] in H; try discriminate;
            destruct (vector_eqb (indexes_of line)
                        (JointStiffnesses.indexes (jointStiffnesses st))) eqn:Hs;
            try discriminate; apply vector_eqb_eq in Hs).
  all: try apply vector_eqb_eq in Hv.
  all: injection H as <-.
  all: repeat split; auto; try discriminate; eauto.
Qed.

Lemma stiffness_directive_accepts st line :
  List.length (split line) = STIFFNESSES_SIZE NUMJOINTS ->
  forallb acceptable (fields line) = true ->
  stiffness_directive NUMJOINTS st line = Next (accumulated NUMJOINTS st line).
Proof.
  intros Hlen Hok. unfold stiffness_directive.
  rewrite Hlen, Nat.eqb_refl. cbn [negb].
  rewrite stiffnesses_loop_accepts
    by (auto; apply fields_length_stiffness; exact Hlen).
  reflexivity.
Qed.

Lemma stiffness_directive_Next st line st' :
  stiffness_directive NUMJOINTS st line = Next st' ->
  List.length (split line) = STIFFNESSES_SIZE NUMJOINTS /\
  forallb acceptable (fields line) = true /\
  st' = accumulated NUMJOINTS st line.
Proof.
  intros H. assert (H' := H). unfold stiffness_directive in H.
  destruct (List.length (split line) =? STIFFNESSES_SIZE NUMJOINTS)%nat eqn:El;
    [|discriminate].
  apply Nat.eqb_eq in El. cbn [negb] in H.
  apply stiffnesses_loop_Next in H as [_ H].
  rewrite (stiffness_directive_accepts _ _ El H) in H'.
  injection H' as <-. auto.
Qed.

(** ** One line *)

Lemma step_position st line :
  is_position line = true ->
  step NUMJOINTS st line = position_directive NUMJOINTS st line.
Proof.
  unfold is_position, starts_with, step.
  destruct (front line) as [c|]; [|discriminate].
  intros H. apply Ascii.eqb_eq in H. subst c. reflexivity.
Qed.

Lemma step_stiffness st line :
  is_stiffness line = true ->
  step NUMJOINTS st line = stiffness_directive NUMJOINTS st line.
Proof.
  unfold is_stiffness, starts_with, step.
  destruct (front line) as [c|]; [|discriminate].
  intros H. rewrite H. reflexivity.
Qed.

Lemma step_ignored st line st' :
  is_position line = false -> is_stiffness line = false ->
  step NUMJOINTS st line = Next st' -> st' = st.
Proof.
  unfold is_position, is_stiffness, starts_with, step.
  destruct (front line) as [c|]; [|discriminate].
  intros -> ->. congruence.
Qed.

End Directives.

(* ================================================================== *)
(** * Runs over several lines *)

Lemma sum_app a b : sum (a ++ b) = sum a + sum b.
Proof. induction a as [|x a IH]; simpl; [reflexivity | rewrite IH; ring]. Qed.

Lemma partial_sums_app t a b :
  partial_sums t (a ++ b) = partial_sums t a ++ partial_sums (t + sum a) b.
Proof.
  revert t; induction a as [|x a IH]; intros t; simpl.
  - rewrite Z.add_0_r. reflexivity.
  - rewrite IH, Z.add_assoc. reflexivity.
Qed.

Lemma partial_sums_length t ds : List.length (partial_sums t ds) = List.length ds.
Proof. revert t; induction ds; intros; simpl; auto. Qed.

Lemma partial_sums_nth ds : forall t k s,
  nth_error (partial_sums t ds) k = Some s -> s = t + sum (firstn (S k) ds).
Proof.
  induction ds as [|d ds IH]; intros t k s H.
  - destruct k; discriminate.
  - destruct k as [|k]; simpl in H.
    + injection H as <-. cbn [firstn sum]. lia.
    + apply IH in H. rewrite H. cbn [firstn sum]. lia.
Qed.

Lemma pending_from_snoc l lines : forall acc,
  pending_from acc (lines ++ [l]) =
  if is_position l then []
  else if is_stiffness l then pending_from acc lines ++ [l]
  else pending_from acc lines.
Proof.
  induction lines as [|x lines IH]; intros acc; simpl.
  - destruct (is_position l), (is_stiffness l); reflexivity.
  - destruct (is_position x); [apply IH|].
    destruct (is_stiffness x); apply IH.
Qed.

Lemma find_snoc {A : Type} (f : A -> bool) (l : list A) (x : A) :
  find f (l ++ [x]) =
  match find f l with
  | Some y => Some y
  | None => if f x then Some x else None
  end.
Proof.
  induction l as [|y l IH]; simpl; [reflexivity|].
  destruct (f y); [reflexivity | exact IH].
Qed.

Lemma durations_snoc lines l :
  durations (lines ++ [l]) =
  durations lines ++ (if is_position l then [duration_of l] else []).
Proof.
  unfold durations. rewrite filter_app, map_app. simpl.
  destruct (is_position l); reflexivity.
Qed.

Section Runs.

Variable NUMJOINTS : nat.

Local Abbreviation fields := (value_fields NUMJOINTS).
Local Abbreviation indexes_of := (line_indexes NUMJOINTS).
Local Abbreviation run := (lines_loop NUMJOINTS).
Local Abbreviation step_line := (step NUMJOINTS).
Local Abbreviation parse_lines := (parse NUMJOINTS).

Lemma lines_loop_app a : forall st b,
  run st (a ++ b) = st' <- run st a ;; run st' b.
Proof.
  induction a as [|l a IH]; intros st b; simpl; [reflexivity|].
  destruct (step_line st l); simpl; auto.
Qed.

Lemma lines_loop_snoc st pre l st' :
  run st (pre ++ [l]) = Next st' ->
  exists st1, run st pre = Next st1 /\ step_line st1 l = Next st'.
Proof.
  rewrite lines_loop_app. intros H. apply bind_Next in H as [st1 [H1 H2]].
  exists st1. split; [exact H1|]. simpl in H2.
  destruct (step_line st1 l); simpl in H2; congruence.
Qed.

(** Induction over the accepted prefixes of an input. *)
Lemma run_ind (P : list string -> state -> Prop) :
  P [] initial ->
  (forall pre st l st',
     run initial pre = Next st -> P pre st ->
     step_line st l = Next st' -> P (pre ++ [l]) st') ->
  forall lines st, run initial lines = Next st -> P lines st.
Proof.
  intros H0 HS lines. induction lines as [|l pre IH] using rev_ind; intros st H.
  - simpl in H. injection H as <-. exact H0.
  - apply lines_loop_snoc in H as [st1 [H1 H2]]. eauto.
Qed.

Lemma step_accepted st l st' : step_line st l = Next st' -> accepted NUMJOINTS st l st'.
Proof.
  intros H. destruct (is_position l) eqn:Hp.
  - rewrite (step_position _ _ _ Hp) in H.
    apply position_directive_Next in H
      as (Hlen & Hok & Hfirst & Hcustom & d & Hd & ->).
    eapply accepted_position; eauto.
  - destruct (is_stiffness l) eqn:Hs.
    + rewrite (step_stiffness _ _ _ Hs) in H.
      apply stiffness_directive_Next in H as (Hlen & Hok & ->).
      apply accepted_stiffness; auto.
    + apply step_ignored in H; auto. apply accepted_ignored; auto.
Qed.

(** ** Invariants of the accepted prefixes *)

(** Without a pending stiffness directive the accumulator is empty. *)
Lemma accumulator_empty lines st :
  run initial lines = Next st ->
  customStiffnesses st = false ->
  jointStiffnesses st = JointStiffnesses.empty.
Proof.
  revert lines st.
  apply (run_ind (fun _ st => customStiffnesses st = false ->
                              jointStiffnesses st = JointStiffnesses.empty)).
  - reflexivity.
  - intros pre st l st' _ IH H. apply step_accepted in H.
    destruct H; subst; simpl; auto. discriminate.
Qed.

(** The accumulator holds what the pending stiffness directives set, in
    the order of the lines; the flag tells whether there is one. *)
Lemma accumulator_pending lines st :
  run initial lines = Next st ->
  customStiffnesses st = negb (match pending lines with [] => true | _ => false end) /\
  JointStiffnesses.indexes (jointStiffnesses st) =
    List.concat (map indexes_of (pending lines)) /\
  JointStiffnesses.stiffnesses (jointStiffnesses st) =
    List.concat (map (fun l => converted_values (fields l)) (pending lines)).
Proof.
  revert lines st.
  apply (run_ind (fun lines st =>
    customStiffnesses st =
      negb (match pending lines with [] => true | _ => false end) /\
    JointStiffnesses.indexes (jointStiffnesses st) =
      List.concat (map indexes_of (pending lines)) /\
    JointStiffnesses.stiffnesses (jointStiffnesses st) =
      List.concat (map (fun l => converted_values (fields l)) (pending lines)))).
  - simpl. auto.
  - intros pre st l st' _ (IH1 & IH2 & IH3) H. apply step_accepted in H.
    unfold pending in *. rewrite pending_from_snoc.
    destruct H as [Hp Hs ->|Hp Hs _ _ ->|d Hp _ _ _ _ _ ->]; rewrite Hp; try rewrite Hs.
    + auto.
    + simpl. rewrite !map_app, !List.concat_app, IH2, IH3. simpl.
      rewrite !app_nil_r.
      destruct (pending_from [] pre); simpl; auto.
    + simpl. auto.
Qed.

(** The first position directive fixes the index sequence of every
    keyframe and of [prevJointPositions]. *)
Lemma reference_set lines st :
  run initial lines = Next st ->
  match find is_position lines with
  | None => firstPosLine st = true /\ keyFrames st = []
  | Some l0 =>
      firstPosLine st = false /\
      JointPositions.indexes (prevJointPositions st) = indexes_of l0 /\
      Forall (fun kf => JointPositions.indexes (KeyFrame.positions kf)
                        = indexes_of l0) (keyFrames st)
  end.
Proof.
  revert lines st.
  apply (run_ind (fun lines st =>
    match find is_position lines with
    | None => firstPosLine st = true /\ keyFrames st = []
    | Some l0 =>
        firstPosLine st = false /\
        JointPositions.indexes (prevJointPositions st) = indexes_of l0 /\
        Forall (fun kf => JointPositions.indexes (KeyFrame.positions kf)
                          = indexes_of l0) (keyFrames st)
    end)).
  - simpl. auto.
  - intros pre st l st' _ IH H. apply step_accepted in H.
    rewrite find_snoc.
    destruct H as [Hp Hs ->|Hp Hs _ _ ->|d Hp _ _ Hfirst _ _ ->].
    + destruct (find is_position pre); [exact IH | rewrite Hp; exact IH].
    + destruct (find is_position pre); [exact IH | rewrite Hp; exact IH].
    + destruct (find is_position pre) as [l0|].
      * destruct IH as (IH1 & IH2 & IH3).
        destruct Hfirst as [Hfirst|Hfirst]; [congruence|].
        cbn [emitted firstPosLine prevJointPositions keyFrames].
        rewrite line_positions_indexes.
        split; [reflexivity|]. split; [congruence|].
        apply Forall_app. split; [exact IH3|].
        constructor; [|constructor].
        cbn [KeyFrame.positions]. rewrite line_positions_indexes. congruence.
      * destruct IH as (IH1 & IH2). rewrite Hp.
        cbn [emitted firstPosLine prevJointPositions keyFrames].
        rewrite line_positions_indexes, IH2.
        split; [reflexivity|]. split; [reflexivity|].
        constructor; [|constructor].
        cbn [KeyFrame.positions]. apply line_positions_indexes.
Qed.

(** The clock is the sum of the durations modulo 2^32, and so is the
    time of each keyframe. *)
Lemma clock lines st :
  run initial lines = Next st ->
  keyFrameTime st = sum (durations lines) mod UINT_MODULUS /\
  times (keyFrames st) =
    map (fun s => s mod UINT_MODULUS) (partial_sums 0 (durations lines)).
Proof.
  revert lines st.
  apply (run_ind (fun lines st =>
    keyFrameTime st = sum (durations lines) mod UINT_MODULUS /\
    times (keyFrames st) =
      map (fun s => s mod UINT_MODULUS) (partial_sums 0 (durations lines)))).
  - simpl. auto.
  - intros pre st l st' _ [IH1 IH2] H. apply step_accepted in H.
    rewrite durations_snoc.
    destruct H as [Hp Hs ->|Hp Hs _ _ ->|d Hp _ _ _ _ Hd ->]; rewrite Hp.
    + rewrite app_nil_r. auto.
    + rewrite app_nil_r. auto.
    + assert (Hdur : duration_of l = d) by (unfold duration_of; rewrite Hd; reflexivity).
      rewrite Hdur, sum_app, partial_sums_app, map_app. unfold times in *.
      cbn -[Z.modulo UINT_MODULUS]. rewrite map_app, IH1, IH2.
      cbn -[Z.modulo UINT_MODULUS].
      rewrite Z.add_0_r, Zplus_mod_idemp_l. auto.
Qed.

(** One keyframe for each position directive. *)
Lemma keyFrames_count lines st :
  run initial lines = Next st ->
  List.length (keyFrames st) = List.length (filter is_position lines).
Proof.
  intros H. apply clock in H as [_ H].
  apply (f_equal (@List.length Z)) in H. unfold times, durations in H.
  rewrite !length_map, partial_sums_length, length_map in H. exact H.
Qed.

(** ** How [parse] fails *)

Lemma stiffnesses_loop_Return toks n : forall i st d r,
  stiffnesses_loop toks n i st = Return d r ->
  reason_of d = InvalidNumericField /\
  r = {| ParseResult.successful := false;
         ParseResult.keyFrames := keyFrames st |}.
Proof.
  induction n as [|n IH]; intros i st d r H; simpl in H; [discriminate|].
  destruct (nth_error toks i) as [t|]; [|discriminate].
  destruct (t =? "-")%string; [eauto|].
  destruct (stof t); try discriminate.
  - apply IH in H. exact H.
  - rewrite logged_fail in H. destruct (printf_literal _); [|discriminate].
    injection H as <- <-. auto.
Qed.

Lemma positions_loop_Return toks n : forall i st jp d r,
  positions_loop toks n i st jp = Return d r ->
  reason_of d = InvalidNumericField /\
  r = {| ParseResult.successful := false;
         ParseResult.keyFrames := keyFrames st |}.
Proof.
  induction n as [|n IH]; intros i st jp d r H; simpl in H; [discriminate|].
  destruct (nth_error toks i) as [t|]; [|discriminate].
  destruct (t =? "-")%string; [eauto|].
  destruct (stof t); try discriminate.
  - apply IH in H. destruct (customStiffnesses st); exact H.
  - rewrite logged_fail in H. destruct (printf_literal _); [|discriminate].
    injection H as <- <-. auto.
Qed.

Lemma step_Return st l d r :
  step_line st l = Return d r ->
  r = {| ParseResult.successful := false;
         ParseResult.keyFrames := keyFrames st |}.
Proof.
  unfold step. destruct (front l) as [c|]; [|discriminate].
  destruct (Ascii.eqb c "$").
  - unfold stiffness_directive.
    destruct (negb _); [intros H; injection H as <- <-; reflexivity|].
    intros H. apply stiffnesses_loop_Return in H as [_ ->]. reflexivity.
  - destruct (Ascii.eqb c "!"); [|discriminate].
    intros H.
    destruct (List.length (split l) =? POSITIONS_SIZE NUMJOINTS)%nat eqn:El.
    + apply Nat.eqb_eq in El.
      destruct (forallb acceptable (fields l)) eqn:Hok.
      * rewrite (position_directive_cases _ _ _ El Hok) in H.
        repeat match type of H with
               | (if ?c then _ else _) = _ => destruct c
               | match ?c with _ => _ end = _ => destruct c
               | (let _ := _ in _) = _ => cbv zeta in H
               | bind (RCLCPP_ERROR _) _ = _ => rewrite logged_fail in H
               end; try discriminate; injection H as <- <-; reflexivity.
      * unfold position_directive in H. rewrite El, Nat.eqb_refl in H.
        cbn [negb] in H. apply bind_Return in H as [H|[[st1 jp] [H _]]].
        -- apply positions_loop_Return in H as [_ ->]. reflexivity.
        -- apply positions_loop_Next in H as [_ H].
           unfold value_fields in Hok. unfold visited in H. congruence.
    + unfold position_directive in H. rewrite El in H. cbn [negb] in H.
      injection H as <- <-. reflexivity.
Qed.

(** A failing run fails at one line, the lines before being accepted. *)
Lemma lines_loop_Return lines : forall st d r,
  run st lines = Return d r ->
  exists pre l post st1,
    lines = pre ++ l :: post /\
    run st pre = Next st1 /\
    step_line st1 l = Return d r.
Proof.
  induction lines as [|l lines IH]; intros st d r H; simpl in H; [discriminate|].
  apply bind_Return in H as [H|[st1 [H1 H2]]].
  - exists [], l, lines, st. auto.
  - apply IH in H2 as (pre & l' & post & st2 & -> & H2 & H3).
    exists (l :: pre), l', post, st2. repeat split; auto.
    simpl. rewrite H1. exact H2.
Qed.

(** [parse] and the loop over the lines. *)
Lemma parse_Next lines r :
  parse_lines lines = Next r <->
  exists st, run initial lines = Next st /\
             r = {| ParseResult.successful := true;
                    ParseResult.keyFrames := keyFrames st |}.
Proof.
  unfold parse. split.
  - intros H. apply bind_Next in H as [st [H1 H2]]. injection H2 as <-. eauto.
  - intros [st [-> ->]]. reflexivity.
Qed.

Lemma parse_app pre rest st :
  run initial pre = Next st ->
  parse_lines (pre ++ rest) =
  st' <- run st rest ;;
  Next {| ParseResult.successful := true;
          ParseResult.keyFrames := keyFrames st' |}.
Proof.
  intros H. unfold parse. rewrite lines_loop_app, H. reflexivity.
Qed.

End Runs.

(* ================================================================== *)
(** * A value token that cannot be converted *)


Lemma first_rejected_Some fields tok :
  first_rejected fields = Some tok ->
  In tok fields /\ unset tok = false /\ forall x, stof tok <> Converted x.
Proof.
  unfold first_rejected. intros H. apply find_some in H as [Hin H].
  split; [exact Hin|]. apply negb_true_iff in H. unfold acceptable in H.
  apply orb_false_iff in H as [Hu H]. split; [exact Hu|].
  intros x E. rewrite E in H. discriminate.
Qed.

(** The loop over the value tokens of a position line ends at the first
    token that is neither the sentinel nor converted: with the message
    about that token when [std::stof] converts nothing of it, with the
    exception of [std::stof] when the number is out of range. *)
Lemma positions_loop_rejects toks n : forall i st jp tok,
  List.length (visited toks n i) = n ->
  first_rejected (visited toks n i) = Some tok ->
  positions_loop toks n i st jp =
  match stof tok with
  | invalid_argument =>
      _ <- RCLCPP_ERROR (joint_value_message tok) ;; fail st (JointValue tok)
  | _ => Throw (std_out_of_range "stof")
  end.
Proof.
  induction n as [|n IH]; intros i st jp tok Hlen Hrej; [discriminate|].
  destruct (nth_error toks i) as [t|] eqn:Ht.
  2:{ rewrite (visited_None _ _ _ Ht) in Hlen. discriminate. }
  rewrite (visited_S _ _ _ _ Ht) in *. simpl in Hlen. injection Hlen as Hlen.
  cbn [positions_loop]. rewrite Ht. fold (unset t).
  unfold first_rejected in Hrej. cbn [find] in Hrej. unfold acceptable in Hrej.
  destruct (unset t) eqn:Hu; cbn [orb negb] in Hrej.
  - apply IH; assumption.
  - destruct (stof t) as [x| |] eqn:E; cbn [negb] in Hrej.
    + rewrite (IH _ _ _ tok Hlen Hrej). destruct (stof tok); try reflexivity.
      destruct (customStiffnesses st); reflexivity.
    + injection Hrej as <-. rewrite E. reflexivity.
    + injection Hrej as <-. rewrite E. reflexivity.
Qed.

(** The same for the loop of a stiffness line. *)
Lemma stiffnesses_loop_rejects toks n : forall i st tok,
  List.length (visited toks n i) = n ->
  first_rejected (visited toks n i) = Some tok ->
  stiffnesses_loop toks n i st =
  match stof tok with
  | invalid_argument =>
      _ <- RCLCPP_ERROR (stiffness_value_message tok) ;;
      fail st (StiffnessValue tok)
  | _ => Throw (std_out_of_range "stof")
  end.
Proof.
  induction n as [|n IH]; intros i st tok Hlen Hrej; [discriminate|].
  destruct (nth_error toks i) as [t|] eqn:Ht.
  2:{ rewrite (visited_None _ _ _ Ht) in Hlen. discriminate. }
  rewrite (visited_S _ _ _ _ Ht) in *. simpl in Hlen. injection Hlen as Hlen.
  cbn [stiffnesses_loop]. rewrite Ht. fold (unset t).
  unfold first_rejected in Hrej. cbn [find] in Hrej. unfold acceptable in Hrej.
  destruct (unset t) eqn:Hu; cbn [orb negb] in Hrej.
  - apply IH; assumption.
  - destruct (stof t) as [x| |] eqn:E; cbn [negb] in Hrej.
    + rewrite (IH _ _ tok Hlen Hrej). destruct (stof tok); reflexivity.
    + injection Hrej as <-. rewrite E. reflexivity.
    + injection Hrej as <-. rewrite E. reflexivity.
Qed.


(* ================================================================== *)
(** * The properties of the design document *)

(** ** Failure keeps the keyframes pushed so far *)

(** C1, as stated, fails: after a well-formed position line, a malformed
    line makes [parse] return the result with [successful = false] and
    with the keyframe of the first line still in [keyFrames]. *)
Lemma failure_carries_keyframes :
  parse NAO_NUMJOINTS [Sample.pose_90; Sample.short_pose] =
  Return (PositionLineSize 3)
    {| ParseResult.successful := false;
       ParseResult.keyFrames := [Sample.keyframe_90] |} /\
  [Sample.keyframe_90] <> [].
Proof. split; [vm_compute; reflexivity | discriminate]. Qed.

(** C1, amended: when [parse] fails, it fails at one line, the lines
    before it being accepted and the lines after it playing no part.  The
    result has [successful = false] and its keyframes are exactly those
    that [parse] returns on the lines before the failing line, one for
    each position directive among them. *)
Theorem failure_returns_earlier_keyframes (NUMJOINTS : nat)
    (lines : list string) (d : diagnostic) (r : ParseResult.t) :
  parse NUMJOINTS lines = Return d r ->
  ParseResult.successful r = false /\
  exists pre line post,
    lines = pre ++ line :: post /\
    parse NUMJOINTS (pre ++ [line]) = Return d r /\
    parse NUMJOINTS pre =
      Next {| ParseResult.successful := true;
              ParseResult.keyFrames := ParseResult.keyFrames r |} /\
    List.length (ParseResult.keyFrames r) =
      List.length (filter is_position pre).
Proof.
  unfold parse. intros H.
  apply bind_Return in H as [H|[st [_ H]]]; [|discriminate].
  apply lines_loop_Return in H as (pre & l & post & st1 & -> & H1 & H2).
  assert (Hr := step_Return _ _ _ _ _ H2). subst r. split; [reflexivity|].
  exists pre, l, post. split; [reflexivity|]. split; [|split].
  - rewrite lines_loop_app, H1. cbn [bind lines_loop]. rewrite H2. reflexivity.
  - rewrite H1. reflexivity.
  - apply (keyFrames_count _ _ _ H1).
Qed.

Lemma failure_returns_earlier_keyframes_witness :
  ParseResult.successful
    {| ParseResult.successful := false;
       ParseResult.keyFrames := [Sample.keyframe_90] |} = false /\
  exists pre line post,
    [Sample.pose_90; Sample.comment; Sample.short_pose; Sample.pose_90] =
      pre ++ line :: post /\
    parse NAO_NUMJOINTS (pre ++ [line]) =
      Return (PositionLineSize 3)
        {| ParseResult.successful := false;
           ParseResult.keyFrames := [Sample.keyframe_90] |} /\
    parse NAO_NUMJOINTS pre =
      Next {| ParseResult.successful := true;
              ParseResult.keyFrames := [Sample.keyframe_90] |} /\
    List.length [Sample.keyframe_90] = List.length (filter is_position pre).
Proof.
  apply (failure_returns_earlier_keyframes NAO_NUMJOINTS
           [Sample.pose_90; Sample.comment; Sample.short_pose; Sample.pose_90]
           (PositionLineSize 3)).
  vm_compute. reflexivity.
Defined.

(** ** Value tokens that are not numbers *)

(** C2, as stated, fails: the value token "1.5abc" is neither the
    sentinel nor a number, yet [std::stof] converts its prefix 1.5 and
    [parse] succeeds. *)
Lemma trailing_characters_accepted :
  nth_error (split Sample.pose_trailing) 1 = Some "1.5abc" /\
  stof "1.5abc" = Converted Sample.one_and_a_half /\
  exists kf,
    parse NAO_NUMJOINTS [Sample.pose_trailing] =
    Next {| ParseResult.successful := true;
            ParseResult.keyFrames := [kf] |} /\
    JointPositions.positions (KeyFrame.positions kf) =
      [deg2rad Sample.one_and_a_half].
Proof.
  split; [reflexivity|]. split; [vm_compute; reflexivity|].
  eexists. split; vm_compute; reflexivity.
Qed.

(** A literal beyond the range of [float]: [std::stof] throws
    [std::out_of_range], which [parse] does not catch. *)
Lemma out_of_range_literal_throws :
  stof "1e40" = out_of_range /\
  parse NAO_NUMJOINTS [Sample.pose_huge] = Throw (std_out_of_range "stof").
Proof. split; vm_compute; reflexivity. Qed.

(** Letters where a value is expected: the conversion fails and so does
    [parse], with the message about the joint value. *)
Example letters_rejected :
  stof "abc" = invalid_argument /\
  parse NAO_NUMJOINTS [Sample.pose_letters] =
  Return (JointValue "abc")
    {| ParseResult.successful := false; ParseResult.keyFrames := [] |}.
Proof. split; vm_compute; reflexivity. Qed.

(** A token that [std::stof] cannot convert and that holds a conversion
    specification: the token is part of the format that [RCLCPP_ERROR]
    gets, and the call has undefined behaviour. *)
Example conversion_in_token_is_undefined :
  stof "%s%n" = invalid_argument /\
  printf_literal "%s%n" = false /\
  parse NAO_NUMJOINTS
    ["! %s%n - - - - - - - - - - - - - - - - - - - - - - - - 100"] = Undefined.
Proof. repeat split; vm_compute; reflexivity. Qed.

(** C2, amended: in a stiffness or position directive with the right
    number of tokens, reached after lines that [parse] accepts, let [tok]
    be the first value token (positions 1 .. NUMJOINTS) that is neither
    the sentinel nor converted by [std::stof].  When [std::stof] can
    convert nothing of it (std::invalid_argument) and it holds no
    conversion specification of [printf], [parse] reports the invalid
    value [tok] and returns a result with [successful = false] that holds
    the keyframes of the lines before. *)
Theorem invalid_value_token_fails (NUMJOINTS : nat)
    (pre post : list string) (line tok : string) (r : ParseResult.t) :
  parse NUMJOINTS pre = Next r ->
  (is_stiffness line = true /\
   List.length (split line) = STIFFNESSES_SIZE NUMJOINTS) \/
  (is_position line = true /\
   List.length (split line) = POSITIONS_SIZE NUMJOINTS) ->
  first_rejected (value_fields NUMJOINTS line) = Some tok ->
  stof tok = invalid_argument ->
  printf_literal tok = true ->
  parse NUMJOINTS (pre ++ line :: post) =
    Return (if is_position line then JointValue tok else StiffnessValue tok)
      {| ParseResult.successful := false;
         ParseResult.keyFrames := ParseResult.keyFrames r |} /\
  reason_of (if is_position line then JointValue tok else StiffnessValue tok)
    = InvalidNumericField.
Proof.
  intros Hpre Hline Hrej Hinv Hlit.
  split; [|destruct (is_position line); reflexivity].
  apply parse_Next in Hpre as [st [Hpre ->]].
  rewrite (parse_app _ _ _ _ Hpre). cbn [lines_loop bind ParseResult.keyFrames].
  destruct Hline as [[Hs Hlen]|[Hp Hlen]].
  - assert (Hp : is_position line = false).
    { unfold is_position, is_stiffness, starts_with in *.
      destruct (front line) as [c|]; [|reflexivity].
      apply Ascii.eqb_eq in Hs. subst c. reflexivity. }
    rewrite Hp, (step_stiffness _ _ _ Hs). unfold stiffness_directive.
    rewrite Hlen, Nat.eqb_refl. cbn [negb].
    rewrite (stiffnesses_loop_rejects _ _ _ _ tok
               (fields_length_stiffness _ _ Hlen) Hrej), Hinv.
    rewrite logged_fail, stiffness_value_message_literal, Hlit. reflexivity.
  - rewrite Hp, (step_position _ _ _ Hp). unfold position_directive.
    rewrite Hlen, Nat.eqb_refl. cbn [negb].
    rewrite (positions_loop_rejects _ _ _ _ _ tok
               (fields_length_position _ _ Hlen) Hrej), Hinv.
    rewrite logged_fail, joint_value_message_literal, Hlit. reflexivity.
Qed.

Lemma invalid_value_token_fails_witness :
  parse NAO_NUMJOINTS
    ([Sample.pose_90] ++ Sample.stiffness_letters :: [Sample.pose_90]) =
    Return (StiffnessValue "abc")
      {| ParseResult.successful := false;
         ParseResult.keyFrames := [Sample.keyframe_90] |} /\
  reason_of (StiffnessValue "abc") = InvalidNumericField.
Proof.
  apply (invalid_value_token_fails NAO_NUMJOINTS [Sample.pose_90]
           [Sample.pose_90] Sample.stiffness_letters "abc"
           {| ParseResult.successful := true;
              ParseResult.keyFrames := [Sample.keyframe_90] |}).
  - vm_compute. reflexivity.
  - left. split; reflexivity.
  - vm_compute. reflexivity.
  - vm_compute. reflexivity.
  - reflexivity.
Defined.

(** ** Comment lines, blank lines and the empty line *)

(** Lines with a first character other than '$' and '!' leave an empty,
    successful result. *)
Lemma ignored_lines_succeed (NUMJOINTS : nat) (lines : list string) :
  forallb ignored lines = true ->
  parse NUMJOINTS lines =
  Next {| ParseResult.successful := true; ParseResult.keyFrames := [] |}.
Proof.
  intros H. unfold parse.
  assert (Hrun : forall st, lines_loop NUMJOINTS st lines = Next st).
  { induction lines as [|l lines IH]; intros st; [reflexivity|].
    simpl in H. apply andb_true_iff in H as [Hl H].
    cbn [lines_loop]. unfold step. unfold ignored in Hl.
    destruct (front l) as [c|]; [|discriminate].
    apply andb_true_iff in Hl as [H1 H2].
    apply negb_true_iff in H1, H2. rewrite H1, H2. cbn [bind]. auto. }
  rewrite Hrun. reflexivity.
Qed.

(** C3 at the empty line: [parse] calls [line.front()] on every line, and
    on a zero-length line that call has undefined behaviour; the line
    does not reach the branch that ignores it. *)
Theorem empty_line_is_undefined (NUMJOINTS : nat) :
  parse NUMJOINTS [EmptyString] = Undefined.
Proof. reflexivity. Qed.

(** ** The clock *)

Lemma partial_sums_bounds ds : forall t,
  0 <= t -> Forall (fun d => 0 <= d) ds ->
  Forall (fun s => t <= s <= t + sum ds) (partial_sums t ds).
Proof.
  induction ds as [|d ds IH]; intros t Ht Hds; simpl; constructor.
  - inversion Hds; subst.
    assert (0 <= sum ds).
    { clear - H2. induction H2; simpl; lia. }
    lia.
  - inversion Hds; subst.
    eapply Forall_impl; [|apply IH; auto; lia].
    simpl. intros s Hs. lia.
Qed.

Lemma partial_sums_nondecreasing ds : forall t,
  Forall (fun d => 0 <= d) ds -> nondecreasing (partial_sums t ds).
Proof.
  induction ds as [|d ds IH]; intros t Hds; simpl; [exact I|].
  inversion Hds; subst. split; [|apply IH; auto].
  destruct ds as [|d' ds]; simpl; [exact I|].
  inversion H2; subst. lia.
Qed.

Lemma map_mod_small (ss : list Z) :
  Forall (fun s => 0 <= s < UINT_MODULUS) ss ->
  map (fun s => s mod UINT_MODULUS) ss = ss.
Proof.
  induction 1 as [|s ss Hs _ IH]; simpl; [reflexivity|].
  rewrite IH, Z.mod_small by exact Hs. reflexivity.
Qed.

(** C4, as stated, fails, in two ways: a negative duration takes the
    clock back (300 then -200 gives the times 300 and 100), and the
    32-bit clock wraps (three durations of 2147483647 give a third time
    below the second). *)
Lemma absolute_time_can_decrease :
  (exists r,
     parse NAO_NUMJOINTS [Sample.pose_300; Sample.pose_back_200] = Next r /\
     ParseResult.successful r = true /\
     times (ParseResult.keyFrames r) = [300; 100] /\
     ~ nondecreasing (times (ParseResult.keyFrames r))) /\
  (exists r,
     parse NAO_NUMJOINTS
       [Sample.pose_int_max; Sample.pose_int_max; Sample.pose_int_max] = Next r /\
     ParseResult.successful r = true /\
     times (ParseResult.keyFrames r) = [2147483647; 4294967294; 2147483645] /\
     ~ nondecreasing (times (ParseResult.keyFrames r))).
Proof.
  split; eexists; (split; [vm_compute; reflexivity|]);
    (split; [reflexivity|]); (split; [reflexivity|]);
    cbn; intros H; lia.
Qed.

(** C4, amended: for every successful parse whose position directives
    all have a non-negative duration, the durations summing to less than
    2^32, the times of the keyframes never go down. *)
Theorem absolute_time_nondecreasing (NUMJOINTS : nat)
    (lines : list string) (r : ParseResult.t) :
  parse NUMJOINTS lines = Next r ->
  Forall (fun d => 0 <= d) (durations lines) ->
  sum (durations lines) < UINT_MODULUS ->
  nondecreasing (times (ParseResult.keyFrames r)).
Proof.
  intros H Hpos Hsum. apply parse_Next in H as [st [H ->]].
  apply clock in H as [_ H]. cbn [ParseResult.keyFrames]. rewrite H.
  rewrite map_mod_small.
  - apply partial_sums_nondecreasing. exact Hpos.
  - eapply Forall_impl; [|apply partial_sums_bounds; [lia | exact Hpos]].
    simpl. intros s Hs. lia.
Qed.

Lemma absolute_time_nondecreasing_witness :
  nondecreasing
    (times [Sample.keyframe_90;
            {| KeyFrame.absolute_time := 1000;
               KeyFrame.positions := KeyFrame.positions Sample.keyframe_90;
               KeyFrame.stiffnesses := KeyFrame.stiffnesses Sample.keyframe_90 |}]).
Proof.
  apply (absolute_time_nondecreasing NAO_NUMJOINTS
           [Sample.pose_90; Sample.comment; Sample.pose_90]
           {| ParseResult.successful := true;
              ParseResult.keyFrames :=
                [Sample.keyframe_90;
                 {| KeyFrame.absolute_time := 1000;
                    KeyFrame.positions := KeyFrame.positions Sample.keyframe_90;
                    KeyFrame.stiffnesses := KeyFrame.stiffnesses Sample.keyframe_90 |}] |}).
  - vm_compute. reflexivity.
  - vm_compute. repeat constructor; discriminate.
  - vm_compute. reflexivity.
Defined.

(** C6, as stated, fails: with three durations of 2147483647 the third
    keyframe carries 2147483645, not the sum 6442450941. *)
Lemma absolute_time_wraps :
  exists r,
    parse NAO_NUMJOINTS
      [Sample.pose_int_max; Sample.pose_int_max; Sample.pose_int_max] = Next r /\
    ParseResult.successful r = true /\
    durations [Sample.pose_int_max; Sample.pose_int_max; Sample.pose_int_max]
      = [2147483647; 2147483647; 2147483647] /\
    option_map KeyFrame.absolute_time (nth_error (ParseResult.keyFrames r) 2)
      = Some 2147483645 /\
    2147483645 <> 2147483647 + 2147483647 + 2147483647.
Proof.
  eexists. split; [vm_compute; reflexivity|].
  repeat split; try reflexivity. lia.
Qed.

(** C6, amended: for every successful parse, the time of the k-th
    keyframe is the sum of the durations of the position directives 1
    to k, taken modulo 2^32 (the clock is an [unsigned]); durations of 300
    and 200 give the times 300 and 500. *)
Theorem absolute_time_is_cumulative (NUMJOINTS : nat)
    (lines : list string) (r : ParseResult.t) :
  parse NUMJOINTS lines = Next r ->
  (forall k kf,
     nth_error (ParseResult.keyFrames r) k = Some kf ->
     KeyFrame.absolute_time kf =
       sum (firstn (S k) (durations lines)) mod UINT_MODULUS) /\
  (durations lines = [300; 200] ->
   times (ParseResult.keyFrames r) = [300; 500]).
Proof.
  intros H. apply parse_Next in H as [st [H ->]].
  apply clock in H as [_ H]. cbn [ParseResult.keyFrames]. split.
  - intros k kf Hk.
    apply (map_nth_error KeyFrame.absolute_time) in Hk.
    fold (times (keyFrames st)) in Hk. rewrite H in Hk.
    rewrite nth_error_map in Hk.
    destruct (nth_error (partial_sums 0 (durations lines)) k) as [s|] eqn:Es;
      [|discriminate].
    simpl in Hk. injection Hk as <-.
    apply partial_sums_nth in Es. subst s. reflexivity.
  - intros Hd. rewrite H, Hd. reflexivity.
Qed.

Lemma absolute_time_is_cumulative_witness :
  exists r,
    parse NAO_NUMJOINTS [Sample.pose_300; Sample.stiffness_0; Sample.pose_200]
      = Next r /\
    (forall k kf,
       nth_error (ParseResult.keyFrames r) k = Some kf ->
       KeyFrame.absolute_time kf =
         sum (firstn (S k)
                (durations [Sample.pose_300; Sample.stiffness_0; Sample.pose_200]))
         mod UINT_MODULUS) /\
    times (ParseResult.keyFrames r) = [300; 500].
Proof.
  eexists. split; [vm_compute; reflexivity|].
  match goal with
  | |- (forall k kf, nth_error (ParseResult.keyFrames ?r) k = _ -> _) /\ _ =>
      destruct (absolute_time_is_cumulative NAO_NUMJOINTS
                  [Sample.pose_300; Sample.stiffness_0; Sample.pose_200] r)
        as [H1 H2]
  end.
  - vm_compute. reflexivity.
  - split; [exact H1|]. apply H2. vm_compute. reflexivity.
Defined.

(** ** One keyframe for each position directive *)

(** C10: a successful parse returns as many keyframes as there are lines
    whose first character is '!'; and a stiffness directive that [parse]
    takes, placed after the last line, changes nothing in the result. *)
Theorem one_keyframe_per_position_line (NUMJOINTS : nat)
    (lines : list string) (r : ParseResult.t) :
  parse NUMJOINTS lines = Next r ->
  ParseResult.successful r = true /\
  List.length (ParseResult.keyFrames r) =
    List.length (filter is_position lines) /\
  (forall line,
     well_formed_stiffness NUMJOINTS line = true ->
     parse NUMJOINTS (lines ++ [line]) = Next r).
Proof.
  intros H. apply parse_Next in H as [st [H ->]].
  split; [reflexivity|]. split; [apply (keyFrames_count _ _ _ H)|].
  intros line Hwf. unfold well_formed_stiffness in Hwf.
  apply andb_true_iff in Hwf as [Hwf Hok].
  apply andb_true_iff in Hwf as [Hs Hlen]. apply Nat.eqb_eq in Hlen.
  rewrite (parse_app _ _ _ _ H). cbn [lines_loop bind].
  rewrite (step_stiffness _ _ _ Hs).
  rewrite (stiffness_directive_accepts _ _ _ Hlen Hok). reflexivity.
Qed.

Lemma one_keyframe_per_position_line_witness :
  ParseResult.successful
    {| ParseResult.successful := true;
       ParseResult.keyFrames := [Sample.keyframe_90] |} = true /\
  List.length [Sample.keyframe_90] =
    List.length (filter is_position [Sample.comment; Sample.pose_90]) /\
  (forall line,
     well_formed_stiffness NAO_NUMJOINTS line = true ->
     parse NAO_NUMJOINTS ([Sample.comment; Sample.pose_90] ++ [line]) =
     Next {| ParseResult.successful := true;
             ParseResult.keyFrames := [Sample.keyframe_90] |}).
Proof.
  apply (one_keyframe_per_position_line NAO_NUMJOINTS
           [Sample.comment; Sample.pose_90]).
  vm_compute. reflexivity.
Defined.

(** A trailing stiffness directive, on the sample input. *)
Example trailing_stiffness_sample :
  well_formed_stiffness NAO_NUMJOINTS Sample.stiffness_01 = true /\
  parse NAO_NUMJOINTS [Sample.pose_90; Sample.stiffness_01] =
  Next {| ParseResult.successful := true;
          ParseResult.keyFrames := [Sample.keyframe_90] |}.
Proof. split; vm_compute; reflexivity. Qed.

(** ** The joint set *)

(** C5: once the lines [pre] are accepted and [l0] is the first position
    directive among them, every keyframe carries the index sequence of
    [l0]; a further position directive is accepted only if its index
    sequence is that of [l0]; and one with acceptable tokens whose index
    sequence is another one makes [parse] fail, reporting that the joint
    positions vectors are not the same. *)
Theorem joint_set_is_fixed (NUMJOINTS : nat)
    (pre post : list string) (l0 line : string) (r : ParseResult.t) :
  parse NUMJOINTS pre = Next r ->
  find is_position pre = Some l0 ->
  Forall (fun kf => JointPositions.indexes (KeyFrame.positions kf)
                    = line_indexes NUMJOINTS l0)
    (ParseResult.keyFrames r) /\
  (is_position line = true ->
   forall r', parse NUMJOINTS (pre ++ [line]) = Next r' ->
   line_indexes NUMJOINTS line = line_indexes NUMJOINTS l0) /\
  (well_formed_position NUMJOINTS line = true ->
   line_indexes NUMJOINTS line <> line_indexes NUMJOINTS l0 ->
   exists d,
     parse NUMJOINTS (pre ++ line :: post) =
       Return d {| ParseResult.successful := false;
                   ParseResult.keyFrames := ParseResult.keyFrames r |} /\
     reason_of d = InconsistentJointSet).
Proof.
  intros H Hfind. apply parse_Next in H as [st [H ->]].
  assert (Href := reference_set _ _ _ H). rewrite Hfind in Href.
  destruct Href as (Hfirst & Hprev & Hall).
  split; [exact Hall|]. split.
  { intros Hp r' H'. apply parse_Next in H' as [st' [H' _]].
    apply lines_loop_snoc in H' as [st1 [H1 Hstep]].
    rewrite H in H1. injection H1 as <-.
    apply step_accepted in Hstep.
    destruct Hstep as [Hp' _ _|Hp' _ _ _ _|d _ _ _ Hsame _ _ _];
      try congruence.
    destruct Hsame as [Hsame|Hsame]; congruence. }
  intros Hwf Hdiff.
  unfold well_formed_position in Hwf.
  apply andb_true_iff in Hwf as [Hwf Hok].
  apply andb_true_iff in Hwf as [Hp Hlen]. apply Nat.eqb_eq in Hlen.
  rewrite (parse_app _ _ _ _ H). cbn [lines_loop bind].
  rewrite (step_position _ _ _ Hp).
  rewrite (position_directive_cases _ _ _ Hlen Hok), Hfirst, Hprev.
  apply vector_eqb_neq in Hdiff. rewrite Hdiff. cbn [negb andb bind].
  exists JointVectorsDiffer. split; reflexivity.
Qed.

Lemma joint_set_is_fixed_witness :
  Forall (fun kf => JointPositions.indexes (KeyFrame.positions kf)
                    = line_indexes NAO_NUMJOINTS Sample.pose_90)
    [Sample.keyframe_90] /\
  exists d,
    parse NAO_NUMJOINTS
      ([Sample.comment; Sample.pose_90] ++ Sample.pose_joint1 :: []) =
      Return d {| ParseResult.successful := false;
                  ParseResult.keyFrames := [Sample.keyframe_90] |} /\
    reason_of d = InconsistentJointSet.
Proof.
  destruct (joint_set_is_fixed NAO_NUMJOINTS
              [Sample.comment; Sample.pose_90] [] Sample.pose_90
              Sample.pose_joint1
              {| ParseResult.successful := true;
                 ParseResult.keyFrames := [Sample.keyframe_90] |})
    as [H1 [_ H2]].
  - vm_compute. reflexivity.
  - reflexivity.
  - split; [exact H1|]. apply H2.
    + vm_compute. reflexivity.
    + vm_compute. discriminate.
Defined.

(** ** Custom stiffness *)

(** C7: let the lines [pre] be accepted, with at least one stiffness
    directive since the last position directive, and let [line] be a
    position directive.  The accumulator holds the index sequences and the
    values of the pending stiffness directives, concatenated in line
    order.  The directive is accepted only if the index sequence of the
    accumulator is that of [line], and the stiffness message of its
    keyframe is then the accumulator, not the implicit default.  When
    [line] passes the checks made before the stiffness check (token
    count, value tokens, joint set, duration): if the two sequences
    differ, in length or in a value, [parse] fails and reports a mismatch
    of stiffnesses and positions; if they are the same, the keyframe is
    emitted. *)
Theorem stiffness_must_match_positions (NUMJOINTS : nat)
    (pre post : list string) (line : string) (r : ParseResult.t) :
  parse NUMJOINTS pre = Next r ->
  pending pre <> [] ->
  is_position line = true ->
  let accumulator :=
    {| JointStiffnesses.indexes :=
         List.concat (map (line_indexes NUMJOINTS) (pending pre));
       JointStiffnesses.stiffnesses :=
         List.concat (map (fun l => converted_values (value_fields NUMJOINTS l))
                        (pending pre)) |} in
  (forall r',
     parse NUMJOINTS (pre ++ [line]) = Next r' ->
     JointStiffnesses.indexes accumulator = line_indexes NUMJOINTS line /\
     exists kf,
       ParseResult.keyFrames r' = ParseResult.keyFrames r ++ [kf] /\
       KeyFrame.stiffnesses kf = accumulator /\
       JointPositions.indexes (KeyFrame.positions kf) =
         JointStiffnesses.indexes accumulator) /\
  (forall d,
     well_formed_position NUMJOINTS line = true ->
     match find is_position pre with
     | None => True
     | Some l0 => line_indexes NUMJOINTS line = line_indexes NUMJOINTS l0
     end ->
     stoi (last (split line) EmptyString) = Converted d ->
     (JointStiffnesses.indexes accumulator <> line_indexes NUMJOINTS line ->
      exists diag,
        parse NUMJOINTS (pre ++ line :: post) =
          Return diag {| ParseResult.successful := false;
                         ParseResult.keyFrames := ParseResult.keyFrames r |} /\
        reason_of diag = StiffnessPositionMismatch) /\
     (JointStiffnesses.indexes accumulator = line_indexes NUMJOINTS line ->
      exists kf,
        parse NUMJOINTS (pre ++ [line]) =
          Next {| ParseResult.successful := true;
                  ParseResult.keyFrames := ParseResult.keyFrames r ++ [kf] |})).
Proof.
  intros H Hpending Hp accumulator.
  apply parse_Next in H as [st [H ->]].
  destruct (accumulator_pending _ _ _ H) as (Hc & Hi & Hv).
  assert (Hcustom : customStiffnesses st = true)
    by (rewrite Hc; destruct (pending pre); [congruence | reflexivity]).
  assert (Hacc : jointStiffnesses st = accumulator)
    by (destruct (jointStiffnesses st); simpl in Hi, Hv; subst; reflexivity).
  cbn [ParseResult.keyFrames]. split.
  - intros r' H'. apply parse_Next in H' as [st' [H' ->]].
    apply lines_loop_snoc in H' as [st1 [H1 Hstep]].
    rewrite H in H1. injection H1 as <-.
    apply step_accepted in Hstep.
    destruct Hstep as [Hp' _ _|Hp' _ _ _ _|d _ _ _ _ Hmatch _ ->];
      try congruence.
    specialize (Hmatch Hcustom). rewrite Hacc in Hmatch.
    split; [symmetry; exact Hmatch|].
    cbn [ParseResult.keyFrames emitted keyFrames].
    eexists. split; [reflexivity|].
    cbn [KeyFrame.stiffnesses KeyFrame.positions].
    unfold line_stiffnesses. rewrite Hcustom, Hacc.
    split; [reflexivity|]. rewrite line_positions_indexes. exact Hmatch.
  - intros d Hwf Hset Hd.
    assert (Href := reference_set _ _ _ H).
    unfold well_formed_position in Hwf.
    apply andb_true_iff in Hwf as [Hwf Hok].
    apply andb_true_iff in Hwf as [_ Hlen]. apply Nat.eqb_eq in Hlen.
    assert (Hcheck :
      negb (firstPosLine st) &&
      negb (vector_eqb (line_indexes NUMJOINTS line)
              (JointPositions.indexes (prevJointPositions st))) = false).
    { destruct (find is_position pre) as [l0|].
      - destruct Href as (_ & Hprev & _). rewrite Hprev, Hset.
        rewrite (proj2 (vector_eqb_eq _ _) eq_refl). apply andb_false_r.
      - destruct Href as [-> _]. reflexivity. }
    assert (Hstep : forall rest,
      parse NUMJOINTS (pre ++ line :: rest) =
      st' <- (st1 <- position_directive NUMJOINTS st line ;;
              lines_loop NUMJOINTS st1 rest) ;;
      Next {| ParseResult.successful := true;
              ParseResult.keyFrames := keyFrames st' |}).
    { intros rest. rewrite (parse_app _ _ _ _ H). cbn [lines_loop].
      rewrite (step_position _ _ _ Hp). reflexivity. }
    split.
    + intros Hdiff. rewrite Hstep.
      rewrite (position_directive_cases _ _ _ Hlen Hok), Hcheck, Hd, Hcustom.
      cbv zeta. rewrite Hacc.
      destruct (List.length (line_indexes NUMJOINTS line) =?
                List.length (JointStiffnesses.indexes accumulator))%nat;
        cbn [negb bind].
      * assert (Hv' : vector_eqb (line_indexes NUMJOINTS line)
                        (JointStiffnesses.indexes accumulator) = false)
          by (apply vector_eqb_neq; congruence).
        rewrite Hv'. exists StiffnessIndexesDiffer. split; reflexivity.
      * exists StiffnessSizeDiffers. split; reflexivity.
    + intros Hsame. rewrite Hstep.
      rewrite (position_directive_cases _ _ _ Hlen Hok), Hcheck, Hd, Hcustom.
      cbv zeta. rewrite Hacc, <- Hsame.
      rewrite Nat.eqb_refl, (proj2 (vector_eqb_eq _ _) eq_refl).
      cbn [negb bind lines_loop emitted keyFrames].
      eexists. reflexivity.
Qed.

Lemma stiffness_must_match_positions_witness :
  (exists diag,
     parse NAO_NUMJOINTS ([Sample.stiffness_0] ++ Sample.pose_90 :: []) =
       Return diag {| ParseResult.successful := false;
                      ParseResult.keyFrames := [] |} /\
     reason_of diag = StiffnessPositionMismatch) /\
  (exists kf,
     [ {| KeyFrame.absolute_time := 500;
          KeyFrame.positions := KeyFrame.positions Sample.keyframe_90;
          KeyFrame.stiffnesses :=
            {| JointStiffnesses.indexes := [0; 1];
               JointStiffnesses.stiffnesses :=
                 [Sample.one_half; Sample.one_quarter] |} |} ] = [] ++ [kf] /\
     KeyFrame.stiffnesses kf =
       {| JointStiffnesses.indexes := [0; 1];
          JointStiffnesses.stiffnesses := [Sample.one_half; Sample.one_quarter] |}).
Proof.
  split.
  - destruct (stiffness_must_match_positions NAO_NUMJOINTS [Sample.stiffness_0]
                [] Sample.pose_90
                {| ParseResult.successful := true; ParseResult.keyFrames := [] |})
      as [_ H].
    + vm_compute. reflexivity.
    + vm_compute. discriminate.
    + reflexivity.
    + destruct (H 500) as [H1 _].
      * vm_compute. reflexivity.
      * vm_compute. exact I.
      * vm_compute. reflexivity.
      * apply H1. vm_compute. discriminate.
  - destruct (stiffness_must_match_positions NAO_NUMJOINTS [Sample.stiffness_01]
                [] Sample.pose_90
                {| ParseResult.successful := true; ParseResult.keyFrames := [] |})
      as [H _].
    + vm_compute. reflexivity.
    + vm_compute. discriminate.
    + reflexivity.
    + destruct (H {| ParseResult.successful := true;
                     ParseResult.keyFrames :=
                       [ {| KeyFrame.absolute_time := 500;
                            KeyFrame.positions := KeyFrame.positions Sample.keyframe_90;
                            KeyFrame.stiffnesses :=
                              {| JointStiffnesses.indexes := [0; 1];
                                 JointStiffnesses.stiffnesses :=
                                   [Sample.one_half; Sample.one_quarter] |} |} ] |})
        as [_ [kf [H1 [H2 _]]]].
      * vm_compute. reflexivity.
      * exists kf. split; [exact H1|]. rewrite H2. vm_compute. reflexivity.
Defined.

(** ** Implicit stiffness *)

(** The implicit stiffness is the number one. *)
Lemma full_stiffness_is_one : full_stiffness = of_int binary32 1.
Proof. vm_compute. reflexivity. Qed.

(** C8: let the lines [pre] be accepted with no stiffness directive
    pending, and let the position directive [line] be accepted after
    them.  The keyframe it emits has, as stiffness indexes, the index
    sequence of the line, which is also its sequence of position indexes,
    and full stiffness (1.0) for each of them. *)
Theorem implicit_full_stiffness (NUMJOINTS : nat)
    (pre : list string) (line : string) (r r' : ParseResult.t) :
  parse NUMJOINTS pre = Next r ->
  pending pre = [] ->
  is_position line = true ->
  parse NUMJOINTS (pre ++ [line]) = Next r' ->
  exists kf,
    ParseResult.keyFrames r' = ParseResult.keyFrames r ++ [kf] /\
    JointPositions.indexes (KeyFrame.positions kf) = line_indexes NUMJOINTS line /\
    JointStiffnesses.indexes (KeyFrame.stiffnesses kf) =
      JointPositions.indexes (KeyFrame.positions kf) /\
    JointStiffnesses.stiffnesses (KeyFrame.stiffnesses kf) =
      repeat (of_int binary32 1)
        (List.length (JointPositions.indexes (KeyFrame.positions kf))).
Proof.
  intros H Hpending Hp H'.
  apply parse_Next in H as [st [H ->]].
  apply parse_Next in H' as [st' [H' ->]].
  apply lines_loop_snoc in H' as [st1 [H1 Hstep]].
  rewrite H in H1. injection H1 as <-.
  destruct (accumulator_pending _ _ _ H) as (Hc & _).
  rewrite Hpending in Hc. cbn [negb] in Hc.
  assert (Hempty := accumulator_empty _ _ _ H Hc).
  apply step_accepted in Hstep.
  destruct Hstep as [Hp' _ _|Hp' _ _ _ _|d _ _ _ _ _ _ ->]; try congruence.
  cbn [ParseResult.keyFrames emitted keyFrames].
  eexists. split; [reflexivity|].
  cbn [KeyFrame.positions KeyFrame.stiffnesses].
  unfold line_stiffnesses. rewrite Hc, Hempty, line_positions_indexes.
  rewrite <- full_stiffness_is_one. repeat split.
Qed.

Lemma implicit_full_stiffness_witness :
  exists kf,
    [Sample.keyframe_90] = [] ++ [kf] /\
    JointPositions.indexes (KeyFrame.positions kf) =
      line_indexes NAO_NUMJOINTS Sample.pose_90 /\
    JointStiffnesses.indexes (KeyFrame.stiffnesses kf) =
      JointPositions.indexes (KeyFrame.positions kf) /\
    JointStiffnesses.stiffnesses (KeyFrame.stiffnesses kf) =
      repeat (of_int binary32 1)
        (List.length (JointPositions.indexes (KeyFrame.positions kf))).
Proof.
  apply (implicit_full_stiffness NAO_NUMJOINTS [] Sample.pose_90
           {| ParseResult.successful := true; ParseResult.keyFrames := [] |}
           {| ParseResult.successful := true;
              ParseResult.keyFrames := [Sample.keyframe_90] |}).
  - reflexivity.
  - reflexivity.
  - reflexivity.
  - vm_compute. reflexivity.
Defined.

(** ** Degrees and radians *)

(** Bounds on pi, from the series of 2 atan(1/3) + atan(1/7). *)
Lemma PI_4_lower : (78539816 / 100000000 <= PI / 4)%R.
Proof.
  apply Rle_trans with (2 := proj1 (PI_2_3_7_ineq 3)).
  unfold sum_f_R0, tg_alt, PI_2_3_7_tg, Ratan_seq. simpl. lra.
Qed.

Lemma PI_4_upper : (PI / 4 <= 78539818 / 100000000)%R.
Proof.
  apply Rle_trans with (1 := proj2 (PI_2_3_7_ineq 3)).
  unfold sum_f_R0, tg_alt, PI_2_3_7_tg, Ratan_seq. simpl. lra.
Qed.

(** The [float] that 90 degrees becomes is within half a unit in the last
    place of pi/2. *)
Lemma half_pi_close :
  (Rabs (real_value Sample.half_pi - PI / 2) <= powerRZ 2 (-24))%R /\
  (Rabs (real_value Sample.minus_half_pi - - (PI / 2)) <= powerRZ 2 (-24))%R.
Proof.
  assert (H1 := PI_4_lower). assert (H2 := PI_4_upper).
  unfold real_value, Sample.half_pi, Sample.minus_half_pi, powerRZ.
  simpl. split; apply Rabs_le; lra.
Qed.

(** C9: when a position directive [line] is accepted after the lines
    [pre], each of its value tokens that is not the sentinel is converted
    by [std::stof] to a number of degrees, and the positions of the
    keyframe are these numbers, in order, each taken through
    [position_deg * M_PI / 180].  On the single line that sets joints 0
    and 1 to 90 and -90 degrees with duration 500 the result is one
    keyframe with time 500, positions within half a unit in the last
    place of pi/2 and -pi/2, and stiffness 1 for both joints. *)
Theorem degrees_to_radians :
  (forall (NUMJOINTS : nat) (pre : list string) (line : string)
          (r r' : ParseResult.t),
     parse NUMJOINTS pre = Next r ->
     is_position line = true ->
     parse NUMJOINTS (pre ++ [line]) = Next r' ->
     exists kf degrees,
       ParseResult.keyFrames r' = ParseResult.keyFrames r ++ [kf] /\
       Forall2 (fun token position_deg => stof token = Converted position_deg)
         (set_tokens (value_fields NUMJOINTS line)) degrees /\
       JointPositions.indexes (KeyFrame.positions kf) =
         line_indexes NUMJOINTS line /\
       JointPositions.positions (KeyFrame.positions kf) =
         map (fun position_deg =>
                round_to binary32
                  (div binary64 (mul binary64 position_deg M_PI)
                     (of_int binary64 180)))
           degrees) /\
  (parse NAO_NUMJOINTS [Sample.pose_90] =
     Next {| ParseResult.successful := true;
             ParseResult.keyFrames :=
               [ {| KeyFrame.absolute_time := 500;
                    KeyFrame.positions :=
                      {| JointPositions.indexes := [0; 1];
                         JointPositions.positions :=
                           [Sample.half_pi; Sample.minus_half_pi] |};
                    KeyFrame.stiffnesses :=
                      {| JointStiffnesses.indexes := [0; 1];
                         JointStiffnesses.stiffnesses :=
                           [Sample.one; Sample.one] |} |} ] |} /\
   (Rabs (real_value Sample.half_pi - PI / 2) <= powerRZ 2 (-24))%R /\
   (Rabs (real_value Sample.minus_half_pi - - (PI / 2)) <= powerRZ 2 (-24))%R /\
   real_value Sample.one = 1%R).
Proof.
  split.
  - intros NUMJOINTS pre line r r' H Hp H'.
    apply parse_Next in H as [st [H ->]].
    apply parse_Next in H' as [st' [H' ->]].
    apply lines_loop_snoc in H' as [st1 [H1 Hstep]].
    rewrite H in H1. injection H1 as <-.
    apply step_accepted in Hstep.
    destruct Hstep as [Hp' _ _|Hp' _ _ _ _|d _ _ Hok _ _ _ ->]; try congruence.
    cbn [ParseResult.keyFrames emitted keyFrames].
    eexists. exists (converted_values (value_fields NUMJOINTS line)).
    split; [reflexivity|]. split; [apply converted_values_acceptable; exact Hok|].
    cbn [KeyFrame.positions]. split; reflexivity.
  - split; [vm_compute; reflexivity|].
    destruct half_pi_close as [H1 H2]. repeat split; auto.
    unfold real_value, Sample.one, powerRZ. simpl. lra.
Qed.

Lemma degrees_to_radians_witness :
  exists kf degrees,
    [Sample.keyframe_90] = [] ++ [kf] /\
    Forall2 (fun token position_deg => stof token = Converted position_deg)
      (set_tokens (value_fields NAO_NUMJOINTS Sample.pose_90)) degrees /\
    JointPositions.indexes (KeyFrame.positions kf) =
      line_indexes NAO_NUMJOINTS Sample.pose_90 /\
    JointPositions.positions (KeyFrame.positions kf) =
      map (fun position_deg =>
             round_to binary32
               (div binary64 (mul binary64 position_deg M_PI)
                  (of_int binary64 180)))
        degrees.
Proof.
  apply (proj1 degrees_to_radians NAO_NUMJOINTS [] Sample.pose_90
           {| ParseResult.successful := true; ParseResult.keyFrames := [] |}
           {| ParseResult.successful := true;
              ParseResult.keyFrames := [Sample.keyframe_90] |}).
  - reflexivity.
  - reflexivity.
  - vm_compute. reflexivity.
Defined.

(* ================================================================== *)
(** * Further properties: [split] *)

Lemma append_nil_r (s : string) : String.append s EmptyString = s.
Proof. induction s as [|c s IH]; simpl; [reflexivity | rewrite IH; reflexivity]. Qed.

Lemma append_assoc (a b c : string) :
  String.append (String.append a b) c = String.append a (String.append b c).
Proof. induction a as [|x a IH]; simpl; [reflexivity | rewrite IH; reflexivity]. Qed.

Lemma no_space_snoc tok c :
  no_space tok = true -> isspace c = false -> no_space (snoc tok c) = true.
Proof.
  intros H Hc. unfold snoc. induction tok as [|a tok IH]; simpl in *.
  - rewrite Hc. reflexivity.
  - apply andb_true_iff in H as [Ha H]. rewrite Ha, IH by exact H. reflexivity.
Qed.

Lemma split_from_tokens s : forall tok,
  no_space tok = true ->
  Forall (fun t => is_token t = true) (split_from tok s).
Proof.
  induction s as [|c s IH]; intros tok Htok; simpl.
  - destruct tok; constructor; [exact Htok | constructor].
  - destruct (isspace c) eqn:Hc.
    + destruct tok; [apply IH; reflexivity|].
      constructor; [exact Htok | apply IH; reflexivity].
    + apply IH. apply no_space_snoc; assumption.
Qed.

(** X1: every token that [split] returns is non-empty and free of white
    space. *)
Theorem split_gives_tokens (line : string) :
  Forall (fun t => is_token t = true) (split line).
Proof. apply split_from_tokens. reflexivity. Qed.

Lemma split_from_separator s1 : forall tok c s2,
  isspace c = true ->
  split_from tok (String.append s1 (String c s2)) =
  split_from tok s1 ++ split s2.
Proof.
  induction s1 as [|a s1 IH]; intros tok c s2 Hc; simpl.
  - rewrite Hc. destruct tok; reflexivity.
  - destruct (isspace a).
    + destruct tok; simpl; rewrite IH by exact Hc; reflexivity.
    + apply IH. exact Hc.
Qed.

Lemma split_separator (s1 s2 : string) (c : ascii) :
  isspace c = true ->
  split (String.append s1 (String c s2)) = split s1 ++ split s2.
Proof. intros Hc. apply split_from_separator. exact Hc. Qed.

(** X2: [split] cuts at white space: the tokens of two texts joined by a
    white-space character are the tokens of the first, then those of the
    second.  White space at either end of a line is therefore dropped. *)
Theorem split_at_separator (s1 s2 : string) (c : ascii) :
  isspace c = true ->
  split (String.append s1 (String c s2)) = split s1 ++ split s2.
Proof. intros Hc. unfold split. apply split_from_separator. exact Hc. Qed.

Lemma split_at_separator_witness :
  split (String.append "!  90" (String " " "-  500 ")) =
  split "!  90" ++ split "-  500 ".
Proof. apply split_at_separator. reflexivity. Defined.

Lemma split_from_no_space t : forall tok,
  no_space t = true ->
  split_from tok t =
  match String.append tok t with
  | EmptyString => []
  | _ => [String.append tok t]
  end.
Proof.
  induction t as [|c t IH]; intros tok Ht; simpl.
  - rewrite append_nil_r. reflexivity.
  - simpl in Ht. apply andb_true_iff in Ht as [Hc Ht].
    apply negb_true_iff in Hc. rewrite Hc, IH by exact Ht.
    unfold snoc. rewrite append_assoc. reflexivity.
Qed.

Lemma split_token t : is_token t = true -> split t = [t].
Proof.
  unfold is_token. intros H. apply andb_true_iff in H as [Hne Hns].
  unfold split. rewrite split_from_no_space by exact Hns. simpl.
  destruct t; [discriminate | reflexivity].
Qed.

(** X3: round trip: the tokens joined with single spaces split back into
    the same tokens. *)
Theorem split_concat (tokens : list string) :
  Forall (fun t => is_token t = true) tokens ->
  split (String.concat " " tokens) = tokens.
Proof.
  induction 1 as [|t ts Ht Hts IH]; [reflexivity|].
  destruct ts as [|t' ts].
  - apply split_token. exact Ht.
  - change (String.concat " " (t :: t' :: ts))
      with (String.append t (String " " (String.concat " " (t' :: ts)))).
    rewrite split_separator by reflexivity.
    rewrite split_token by exact Ht. rewrite IH. reflexivity.
Qed.

Lemma split_concat_witness :
  split (String.concat " " ["$"; "0.5"; "-"]) = ["$"; "0.5"; "-"].
Proof. apply split_concat. repeat constructor. Defined.

(* ================================================================== *)
(** * Further properties: [vec2str] *)

(** The decimal text of a byte is a token, and [std::stoi] reads the
    byte back from it. *)
Definition reads_back (n : nat) : bool :=
  is_token (decimal (Z.of_nat n)) &&
  match stoi (decimal (Z.of_nat n)) with
  | Converted x => x =? Z.of_nat n
  | _ => false
  end.

Lemma bytes_read_back : forallb reads_back (seq 0 256) = true.
Proof. vm_compute. reflexivity. Qed.

Lemma byte_reads_back (elem : Z) :
  0 <= elem < 256 ->
  is_token (decimal elem) = true /\ stoi (decimal elem) = Converted elem.
Proof.
  intros H.
  assert (Hin : In (Z.to_nat elem) (seq 0 256)) by (apply in_seq; lia).
  assert (Hb := proj1 (forallb_forall _ _) bytes_read_back _ Hin).
  unfold reads_back in Hb. rewrite Z2Nat.id in Hb by lia.
  apply andb_true_iff in Hb as [Ht Hs]. split; [exact Ht|].
  destruct (stoi (decimal elem)) as [x| |]; try discriminate.
  apply Z.eqb_eq in Hs. subst x. reflexivity.
Qed.

Lemma split_vec2str_loop (vec : list Z) :
  Forall (fun elem => 0 <= elem < 256) vec ->
  split (String.append (vec2str_loop vec) "]") = map decimal vec ++ ["]"].
Proof.
  induction 1 as [|elem rest He _ IH]; [reflexivity|].
  cbn [vec2str_loop map]. rewrite append_assoc.
  change (String.append (String.append " " (vec2str_loop rest)) "]")
    with (String " " (String.append (vec2str_loop rest) "]")).
  rewrite split_separator by reflexivity.
  rewrite split_token by (apply byte_reads_back; exact He).
  rewrite IH. reflexivity.
Qed.

(** X4: the text of [vec2str] splits into an opening bracket, one token for
    each element and a closing bracket, and [std::stoi] reads every
    element back from its token: the printed vector loses nothing. *)
Theorem vec2str_reads_back (vec : list Z) :
  Forall (fun elem => 0 <= elem < 256) vec ->
  split (vec2str vec) = "[" :: map decimal vec ++ ["]"] /\
  map stoi (map decimal vec) = map Converted vec.
Proof.
  intros H. split.
  - unfold vec2str.
    change (String.append "[ " (String.append (vec2str_loop vec) "]"))
      with (String.append "[" (String " " (String.append (vec2str_loop vec) "]"))).
    rewrite split_separator by reflexivity.
    rewrite split_vec2str_loop by exact H. reflexivity.
  - induction H as [|elem rest He _ IH]; [reflexivity|].
    cbn [map]. rewrite IH.
    rewrite (proj2 (byte_reads_back elem He)). reflexivity.
Qed.

Lemma vec2str_reads_back_witness :
  split (vec2str [0; 17; 255]) = "[" :: map decimal [0; 17; 255] ++ ["]"] /\
  map stoi (map decimal [0; 17; 255]) = map Converted [0; 17; 255].
Proof. apply vec2str_reads_back. repeat constructor; lia. Defined.

Example vec2str_sample : vec2str [0; 17; 255] = "[ 0 17 255 ]".
Proof. vm_compute. reflexivity. Qed.

(* ================================================================== *)
(** * Further properties: the errors of [parse] *)

(** A run that stops does so at one line, the lines before being
    accepted. *)
Lemma lines_loop_stops (NUMJOINTS : nat) (o : flow state) lines : forall st,
  (forall st', o <> Next st') ->
  lines_loop NUMJOINTS st lines = o ->
  exists pre l post st1,
    lines = pre ++ l :: post /\
    lines_loop NUMJOINTS st pre = Next st1 /\
    step NUMJOINTS st1 l = o.
Proof.
  induction lines as [|l lines IH]; intros st Ho H; simpl in H.
  - exfalso. eapply Ho. symmetry. exact H.
  - destruct (step NUMJOINTS st l) as [st1| | |] eqn:Hstep; simpl in H.
    + destruct (IH st1 Ho H) as (pre & l' & post & st2 & -> & H2 & H3).
      exists (l :: pre), l', post, st2. repeat split; auto.
      simpl. rewrite Hstep. exact H2.
    + exists [], l, lines, st. subst o. auto.
    + exists [], l, lines, st. subst o. auto.
    + exists [], l, lines, st. subst o. auto.
Qed.

(** The outcome of [parse], from the outcome of the loop. *)
Lemma parse_stops (NUMJOINTS : nat) lines (o : flow ParseResult.t) :
  (forall r, o <> Next r) ->
  parse NUMJOINTS lines = o ->
  exists pre l post st r,
    lines = pre ++ l :: post /\
    lines_loop NUMJOINTS initial pre = Next st /\
    parse NUMJOINTS pre = Next r /\
    ParseResult.keyFrames r = keyFrames st /\
    match step NUMJOINTS st l with
    | Next _ => False
    | Return d r' => o = Return d r'
    | Throw e => o = Throw e
    | Undefined => o = Undefined
    end.
Proof.
  intros Ho H. unfold parse in H.
  destruct (lines_loop NUMJOINTS initial lines) as [st'| d r'| e |] eqn:Hl;
    simpl in H.
  - exfalso. eapply Ho. symmetry. exact H.
  - apply lines_loop_stops in Hl as (pre & l & post & st & -> & H1 & H2);
      [|discriminate].
    exists pre, l, post, st. eexists. split; [reflexivity|].
    split; [exact H1|]. split; [unfold parse; rewrite H1; reflexivity|].
    split; [reflexivity|]. rewrite H2. auto.
  - apply lines_loop_stops in Hl as (pre & l & post & st & -> & H1 & H2);
      [|discriminate].
    exists pre, l, post, st. eexists. split; [reflexivity|].
    split; [exact H1|]. split; [unfold parse; rewrite H1; reflexivity|].
    split; [reflexivity|]. rewrite H2. auto.
  - apply lines_loop_stops in Hl as (pre & l & post & st & -> & H1 & H2);
      [|discriminate].
    exists pre, l, post, st. eexists. split; [reflexivity|].
    split; [exact H1|]. split; [unfold parse; rewrite H1; reflexivity|].
    split; [reflexivity|]. rewrite H2. auto.
Qed.

(** X5: a directive with the wrong number of tokens: whatever the tokens
    are, [parse] reports the number of elements it found and returns
    [successful = false], with the keyframes of the lines before. *)
Theorem wrong_token_count_fails (NUMJOINTS : nat)
    (pre post : list string) (line : string) (r : ParseResult.t) :
  parse NUMJOINTS pre = Next r ->
  (is_stiffness line = true /\
   List.length (split line) <> STIFFNESSES_SIZE NUMJOINTS) \/
  (is_position line = true /\
   List.length (split line) <> POSITIONS_SIZE NUMJOINTS) ->
  exists d,
    parse NUMJOINTS (pre ++ line :: post) =
      Return d {| ParseResult.successful := false;
                  ParseResult.keyFrames := ParseResult.keyFrames r |} /\
    (d = StiffnessLineSize (List.length (split line)) \/
     d = PositionLineSize (List.length (split line))) /\
    reason_of d = MalformedLine.
Proof.
  intros Hpre Hline. apply parse_Next in Hpre as [st [Hpre ->]].
  rewrite (parse_app _ _ _ _ Hpre). cbn [lines_loop bind ParseResult.keyFrames].
  destruct Hline as [[Hs Hlen]|[Hp Hlen]].
  - rewrite (step_stiffness _ _ _ Hs). unfold stiffness_directive.
    apply Nat.eqb_neq in Hlen. rewrite Hlen. cbn [negb bind].
    eexists. split; [reflexivity|]. split; [left|]; reflexivity.
  - rewrite (step_position _ _ _ Hp). unfold position_directive.
    apply Nat.eqb_neq in Hlen. rewrite Hlen. cbn [negb bind].
    eexists. split; [reflexivity|]. split; [right|]; reflexivity.
Qed.

Lemma wrong_token_count_fails_witness :
  exists d,
    parse NAO_NUMJOINTS ([Sample.pose_90] ++ "$ 0.5 0.5" :: [Sample.pose_90]) =
      Return d {| ParseResult.successful := false;
                  ParseResult.keyFrames := [Sample.keyframe_90] |} /\
    (d = StiffnessLineSize (List.length (split "$ 0.5 0.5")) \/
     d = PositionLineSize (List.length (split "$ 0.5 0.5"))) /\
    reason_of d = MalformedLine.
Proof.
  apply (wrong_token_count_fails NAO_NUMJOINTS [Sample.pose_90]
           [Sample.pose_90] "$ 0.5 0.5"
           {| ParseResult.successful := true;
              ParseResult.keyFrames := [Sample.keyframe_90] |}).
  - vm_compute. reflexivity.
  - left. split; [reflexivity | vm_compute; discriminate].
Defined.



(** The same directive with a duration that holds a conversion
    specification. *)
Example conversion_in_duration_is_undefined :
  stoi "%d" = invalid_argument /\
  parse NAO_NUMJOINTS
    ["! 90 -90 - - - - - - - - - - - - - - - - - - - - - - - %d"] = Undefined.
Proof. split; vm_compute; reflexivity. Qed.

(* ================================================================== *)
(** * Further properties: exceptions and undefined behaviour *)

Lemma stiffnesses_loop_Throw toks n : forall i st e,
  List.length (visited toks n i) = n ->
  stiffnesses_loop toks n i st = Throw e ->
  e = std_out_of_range "stof" /\
  exists tok, In tok (visited toks n i) /\ stof tok = out_of_range.
Proof.
  induction n as [|n IH]; intros i st e Hlen H; simpl in H; [discriminate|].
  destruct (nth_error toks i) as [t|] eqn:Ht.
  2:{ rewrite (visited_None _ _ _ Ht) in Hlen. discriminate. }
  rewrite (visited_S _ _ _ _ Ht) in *. simpl in Hlen. injection Hlen as Hlen.
  destruct (t =? "-")%string.
  - destruct (IH _ _ _ Hlen H) as [He [tok [Hin Htok]]].
    split; [exact He|]. exists tok. split; [right; exact Hin | exact Htok].
  - destruct (stof t) as [x| |] eqn:E.
    + destruct (IH _ _ _ Hlen H) as [He [tok [Hin Htok]]].
      split; [exact He|]. exists tok. split; [right; exact Hin | exact Htok].
    + rewrite logged_fail in H. destruct (printf_literal _); discriminate.
    + injection H as <-. split; [reflexivity|].
      exists t. split; [left; reflexivity | exact E].
Qed.

Lemma positions_loop_Throw toks n : forall i st jp e,
  List.length (visited toks n i) = n ->
  positions_loop toks n i st jp = Throw e ->
  e = std_out_of_range "stof" /\
  exists tok, In tok (visited toks n i) /\ stof tok = out_of_range.
Proof.
  induction n as [|n IH]; intros i st jp e Hlen H; simpl in H; [discriminate|].
  destruct (nth_error toks i) as [t|] eqn:Ht.
  2:{ rewrite (visited_None _ _ _ Ht) in Hlen. discriminate. }
  rewrite (visited_S _ _ _ _ Ht) in *. simpl in Hlen. injection Hlen as Hlen.
  destruct (t =? "-")%string.
  - destruct (IH _ _ _ _ Hlen H) as [He [tok [Hin Htok]]].
    split; [exact He|]. exists tok. split; [right; exact Hin | exact Htok].
  - destruct (stof t) as [x| |] eqn:E.
    + destruct (IH _ _ _ _ Hlen H) as [He [tok [Hin Htok]]].
      split; [exact He|]. exists tok. split; [right; exact Hin | exact Htok].
    + rewrite logged_fail in H. destruct (printf_literal _); discriminate.
    + injection H as <-. split; [reflexivity|].
      exists t. split; [left; reflexivity | exact E].
Qed.

(** A position directive with acceptable tokens throws only for a
    duration out of range. *)
Lemma position_directive_Throw (NUMJOINTS : nat) st line e :
  List.length (split line) = POSITIONS_SIZE NUMJOINTS ->
  forallb acceptable (value_fields NUMJOINTS line) = true ->
  position_directive NUMJOINTS st line = Throw e ->
  e = std_out_of_range "stoi" /\
  stoi (last (split line) EmptyString) = out_of_range.
Proof.
  intros Hlen Hok H. rewrite (position_directive_cases _ _ _ Hlen Hok) in H.
  destruct (negb (firstPosLine st) && _); [discriminate|].
  destruct (stoi (last (split line) EmptyString)) as [d| |] eqn:Hd.
  - cbv zeta in H. destruct (customStiffnesses st); [|discriminate].
    destruct (negb _); [discriminate|].
    destruct (vector_eqb _ _); discriminate.
  - rewrite logged_fail in H. destruct (printf_literal _); discriminate.
  - injection H as <-. auto.
Qed.

(** With a value token that is not acceptable, a position directive ends
    as its loop over the tokens ends, and that is not by going on: what
    follows the loop is never run. *)
Lemma position_directive_scan (NUMJOINTS : nat) st line :
  List.length (split line) = POSITIONS_SIZE NUMJOINTS ->
  forallb acceptable (value_fields NUMJOINTS line) = false ->
  position_directive NUMJOINTS st line =
  x <- positions_loop (split line) NUMJOINTS 1 st JointPositions.empty ;;
  Undefined /\
  forall res,
    positions_loop (split line) NUMJOINTS 1 st JointPositions.empty <> Next res.
Proof.
  intros Hlen Hok.
  assert (Hno : forall res,
    positions_loop (split line) NUMJOINTS 1 st JointPositions.empty <> Next res).
  { intros res H. apply positions_loop_Next in H as [_ H].
    unfold value_fields in Hok. unfold visited in H. congruence. }
  split; [|exact Hno].
  unfold position_directive. rewrite Hlen, Nat.eqb_refl. cbn [negb].
  destruct (positions_loop (split line) NUMJOINTS 1 st JointPositions.empty)
    as [res| | |] eqn:E; try reflexivity.
  exfalso. exact (Hno res eq_refl).
Qed.

Lemma step_Throw (NUMJOINTS : nat) st line e :
  step NUMJOINTS st line = Throw e ->
  (e = std_out_of_range "stof" /\
   (is_stiffness line = true \/ is_position line = true) /\
   exists tok, In tok (value_fields NUMJOINTS line) /\ stof tok = out_of_range) \/
  (e = std_out_of_range "stoi" /\
   is_position line = true /\
   stoi (last (split line) EmptyString) = out_of_range).
Proof.
  intros H. destruct (is_position line) eqn:Hp.
  - rewrite (step_position _ _ _ Hp) in H.
    destruct (List.length (split line) =? POSITIONS_SIZE NUMJOINTS)%nat eqn:El.
    + apply Nat.eqb_eq in El.
      destruct (forallb acceptable (value_fields NUMJOINTS line)) eqn:Hok.
      * right. destruct (position_directive_Throw _ st _ e El Hok H). auto.
      * left. destruct (position_directive_scan _ st _ El Hok) as [Heq _].
        rewrite Heq in H.
        destruct (positions_loop (split line) NUMJOINTS 1 st JointPositions.empty)
          as [res| | |] eqn:E; try discriminate.
        simpl in H. injection H as ->.
        apply positions_loop_Throw in E as [He Htok];
          [|apply fields_length_position; exact El].
        auto.
    + unfold position_directive in H. rewrite El in H. discriminate.
  - destruct (is_stiffness line) eqn:Hs.
    + rewrite (step_stiffness _ _ _ Hs) in H. unfold stiffness_directive in H.
      destruct (List.length (split line) =? STIFFNESSES_SIZE NUMJOINTS)%nat eqn:El;
        [|discriminate].
      apply Nat.eqb_eq in El. cbn [negb] in H.
      apply stiffnesses_loop_Throw in H as [He Htok];
        [|apply fields_length_stiffness; exact El].
      left. auto.
    + unfold step in H. unfold is_position, is_stiffness, starts_with in Hp, Hs.
      destruct (front line); [|discriminate]. rewrite Hs, Hp in H. discriminate.
Qed.

(** ** Where the behaviour is undefined *)






(** X7: [parse] lets an exception out only when [std::stof] or [std::stoi]
    reports a number out of range, on a directive reached after accepted
    lines; the accesses [at(i)] are always within the vectors. *)
Theorem exceptions_are_range_errors (NUMJOINTS : nat)
    (lines : list string) (e : exception) :
  parse NUMJOINTS lines = Throw e ->
  exists pre line post r,
    lines = pre ++ line :: post /\
    parse NUMJOINTS pre = Next r /\
    ((e = std_out_of_range "stof" /\
      (is_stiffness line = true \/ is_position line = true) /\
      exists tok, In tok (value_fields NUMJOINTS line) /\
                  stof tok = out_of_range) \/
     (e = std_out_of_range "stoi" /\
      is_position line = true /\
      stoi (last (split line) EmptyString) = out_of_range)).
Proof.
  intros H. apply parse_stops in H as (pre & l & post & st & r & -> & _ & Hr & _ & H);
    [|discriminate].
  exists pre, l, post, r. split; [reflexivity|]. split; [exact Hr|].
  destruct (step NUMJOINTS st l) as [st'|d r'|e'|] eqn:Hstep;
    try contradiction; try discriminate.
  injection H as ->. apply step_Throw in Hstep. exact Hstep.
Qed.

Lemma exceptions_are_range_errors_witness :
  exists pre line post r,
    [Sample.pose_90; Sample.pose_huge] = pre ++ line :: post /\
    parse NAO_NUMJOINTS pre = Next r /\
    ((std_out_of_range "stof" = std_out_of_range "stof" /\
      (is_stiffness line = true \/ is_position line = true) /\
      exists tok, In tok (value_fields NAO_NUMJOINTS line) /\
                  stof tok = out_of_range) \/
     (std_out_of_range "stof" = std_out_of_range "stoi" /\
      is_position line = true /\
      stoi (last (split line) EmptyString) = out_of_range)).
Proof.
  apply (exceptions_are_range_errors NAO_NUMJOINTS
           [Sample.pose_90; Sample.pose_huge]).
  vm_compute. reflexivity.
Defined.



(* ================================================================== *)
(** * Further properties: how the lines compose *)

Lemma step_ignored_line (NUMJOINTS : nat) st line :
  ignored line = true -> step NUMJOINTS st line = Next st.
Proof.
  unfold ignored, step. destruct (front line) as [c|]; [|discriminate].
  intros H. apply andb_true_iff in H as [H1 H2].
  apply negb_true_iff in H1, H2. rewrite H1, H2. reflexivity.
Qed.

Lemma lines_loop_without_ignored (NUMJOINTS : nat) lines : forall st,
  lines_loop NUMJOINTS st lines =
  lines_loop NUMJOINTS st (filter (fun l => negb (ignored l)) lines).
Proof.
  induction lines as [|l lines IH]; intros st; [reflexivity|].
  cbn [filter]. destruct (ignored l) eqn:Hl; cbn [negb lines_loop].
  - rewrite (step_ignored_line _ _ _ Hl). cbn [bind]. apply IH.
  - destruct (step NUMJOINTS st l); cbn [bind]; auto.
Qed.

(** X9: lines that start with a character other than '$' and '!' (comments,
    lines of white space, directives written after white space) do not
    matter: [parse] gives the same outcome once they are removed. *)
Theorem ignored_lines_do_not_matter (NUMJOINTS : nat) (lines : list string) :
  parse NUMJOINTS lines =
  parse NUMJOINTS (filter (fun l => negb (ignored l)) lines).
Proof. unfold parse. rewrite lines_loop_without_ignored. reflexivity. Qed.

(** X10: once [parse] has stopped on an input, by an error that it
    reports or by an exception that leaves it, no line added after that
    input is looked at: the outcome is the same. *)
Theorem nothing_after_the_stop (NUMJOINTS : nat) (lines more : list string) :
  (exists d r, parse NUMJOINTS lines = Return d r) \/
  (exists e, parse NUMJOINTS lines = Throw e) ->
  parse NUMJOINTS (lines ++ more) = parse NUMJOINTS lines.
Proof.
  unfold parse. rewrite lines_loop_app.
  destruct (lines_loop NUMJOINTS initial lines) as [st| | |]; try reflexivity.
  intros [(d & r & H)|(e & H)]; discriminate.
Qed.

Lemma nothing_after_the_stop_witness :
  parse NAO_NUMJOINTS ([Sample.pose_90; Sample.short_pose] ++ [Sample.pose_90]) =
    parse NAO_NUMJOINTS [Sample.pose_90; Sample.short_pose] /\
  parse NAO_NUMJOINTS ([Sample.pose_90; Sample.pose_huge] ++ [Sample.pose_90]) =
    parse NAO_NUMJOINTS [Sample.pose_90; Sample.pose_huge].
Proof.
  split; apply nothing_after_the_stop.
  - left. eexists. eexists. vm_compute. reflexivity.
  - right. eexists. vm_compute. reflexivity.
Defined.

Lemma step_extends (NUMJOINTS : nat) st l st' :
  step NUMJOINTS st l = Next st' ->
  exists more, keyFrames st' = keyFrames st ++ more.
Proof.
  intros H. apply step_accepted in H.
  destruct H as [_ _ ->|_ _ _ _ ->|d _ _ _ _ _ _ ->].
  - exists []. rewrite app_nil_r. reflexivity.
  - exists []. rewrite app_nil_r. reflexivity.
  - eexists. reflexivity.
Qed.

Lemma lines_loop_extends (NUMJOINTS : nat) lines : forall st,
  match lines_loop NUMJOINTS st lines with
  | Next st' => exists more, keyFrames st' = keyFrames st ++ more
  | Return _ r => exists more, ParseResult.keyFrames r = keyFrames st ++ more
  | _ => True
  end.
Proof.
  induction lines as [|l lines IH]; intros st; cbn [lines_loop].
  - exists []. rewrite app_nil_r. reflexivity.
  - destruct (step NUMJOINTS st l) as [st1|d r|e|] eqn:Hstep; cbn [bind].
    + apply step_extends in Hstep as [m1 H1]. specialize (IH st1).
      destruct (lines_loop NUMJOINTS st1 lines); auto;
        destruct IH as [m2 H2]; exists (m1 ++ m2);
        rewrite H2, H1, app_assoc; reflexivity.
    + apply step_Return in Hstep. subst r. exists [].
      rewrite app_nil_r. reflexivity.
    + exact I.
    + exact I.
Qed.

(** X11: keyframes are only ever added at the end: what [parse] returns on a
    longer input, whether it succeeds or fails, starts with the keyframes
    it returns on an accepted beginning of that input. *)
Theorem keyframes_only_grow (NUMJOINTS : nat)
    (pre rest : list string) (r r' : ParseResult.t) :
  parse NUMJOINTS pre = Next r ->
  returned (parse NUMJOINTS (pre ++ rest)) = Some r' ->
  exists more,
    ParseResult.keyFrames r' = ParseResult.keyFrames r ++ more.
Proof.
  intros H H'. apply parse_Next in H as [st [H ->]].
  rewrite (parse_app _ _ _ _ H) in H'. cbn [ParseResult.keyFrames].
  assert (Hext := lines_loop_extends NUMJOINTS rest st).
  destruct (lines_loop NUMJOINTS st rest) as [st'|d r''|e|]; simpl in H';
    try discriminate; injection H' as <-; exact Hext.
Qed.

Lemma keyframes_only_grow_witness :
  exists more,
    [Sample.keyframe_90;
     {| KeyFrame.absolute_time := 1000;
        KeyFrame.positions := KeyFrame.positions Sample.keyframe_90;
        KeyFrame.stiffnesses := KeyFrame.stiffnesses Sample.keyframe_90 |}] =
    [Sample.keyframe_90] ++ more.
Proof.
  apply (keyframes_only_grow NAO_NUMJOINTS [Sample.pose_90; Sample.comment]
           [Sample.pose_90; Sample.short_pose]
           {| ParseResult.successful := true;
              ParseResult.keyFrames := [Sample.keyframe_90] |}
           {| ParseResult.successful := false;
              ParseResult.keyFrames :=
                [Sample.keyframe_90;
                 {| KeyFrame.absolute_time := 1000;
                    KeyFrame.positions := KeyFrame.positions Sample.keyframe_90;
                    KeyFrame.stiffnesses :=
                      KeyFrame.stiffnesses Sample.keyframe_90 |}] |}).
  - vm_compute. reflexivity.
  - vm_compute. reflexivity.
Defined.

(* ================================================================== *)
(** * Further properties: the keyframes *)

(** The keyframes that [parse] returns, on success or on failure, are
    those of the state reached after some accepted beginning of the
    input. *)
Lemma returned_keyframes (NUMJOINTS : nat) lines r :
  returned (parse NUMJOINTS lines) = Some r ->
  exists pre st,
    lines_loop NUMJOINTS initial pre = Next st /\
    ParseResult.keyFrames r = keyFrames st.
Proof.
  intros H. destruct (parse NUMJOINTS lines) as [r0|d r0|e|] eqn:Hp;
    simpl in H; try discriminate; injection H as ->.
  - apply parse_Next in Hp as [st [Hp ->]]. exists lines, st. auto.
  - apply parse_stops in Hp as (pre & l & post & st & r1 & -> & H1 & _ & _ & H);
      [|discriminate].
    destruct (step NUMJOINTS st l) as [st'|d' r'|e'|] eqn:Hstep;
      try contradiction; try discriminate.
    injection H as -> ->. apply step_Return in Hstep. subst.
    exists pre, st. auto.
Qed.

Lemma converted_values_length fields : forall i,
  forallb acceptable fields = true ->
  List.length (converted_values fields) = List.length (set_indexes i fields).
Proof.
  induction fields as [|t fields IH]; intros i H; [reflexivity|].
  simpl in H. apply andb_true_iff in H as [Ht H]. simpl.
  unfold acceptable in Ht. destruct (unset t); [apply IH; exact H|].
  simpl in Ht. destruct (stof t); try discriminate.
  simpl. rewrite (IH (S i) H). reflexivity.
Qed.

Lemma shape_invariant (NUMJOINTS : nat) lines st :
  lines_loop NUMJOINTS initial lines = Next st ->
  List.length (JointStiffnesses.indexes (jointStiffnesses st)) =
    List.length (JointStiffnesses.stiffnesses (jointStiffnesses st)) /\
  Forall well_shaped (keyFrames st).
Proof.
  revert lines st.
  apply (run_ind NUMJOINTS (fun _ st =>
    List.length (JointStiffnesses.indexes (jointStiffnesses st)) =
      List.length (JointStiffnesses.stiffnesses (jointStiffnesses st)) /\
    Forall well_shaped (keyFrames st))).
  - split; [reflexivity | constructor].
  - intros pre st l st' Hrun [IH1 IH2] H. apply step_accepted in H.
    destruct H as [_ _ ->|_ _ _ Hok ->|d _ _ Hok _ Hmatch _ ->].
    + auto.
    + split; [|exact IH2]. simpl. rewrite !length_app, IH1.
      rewrite (converted_values_length _ 1 Hok). reflexivity.
    + split; [reflexivity|]. cbn [emitted keyFrames].
      apply Forall_app. split; [exact IH2|]. constructor; [|constructor].
      unfold well_shaped, line_stiffnesses.
      cbn [KeyFrame.positions KeyFrame.stiffnesses KeyFrame.absolute_time].
      rewrite line_positions_indexes.
      assert (Hpos : List.length
                (JointPositions.positions (line_positions NUMJOINTS l)) =
              List.length (line_indexes NUMJOINTS l))
        by (simpl; rewrite length_map; apply converted_values_length; exact Hok).
      assert (Ht : 0 <= (keyFrameTime st + d) mod UINT_MODULUS < UINT_MODULUS)
        by (apply Z.mod_pos_bound; reflexivity).
      destruct (customStiffnesses st) eqn:Hc.
      * split; [symmetry; exact (Hmatch eq_refl)|].
        split; [exact Hpos|]. split; [symmetry; exact IH1 | exact Ht].
      * rewrite (accumulator_empty _ _ _ Hrun Hc). simpl.
        rewrite repeat_length. auto.
Qed.

(** X12: in every keyframe that [parse] returns, on success and on failure
    alike, the stiffness indexes are the position indexes, each vector
    of values has the length of its vector of indexes, and the time is
    below 2^32. *)
Theorem keyframes_are_well_shaped (NUMJOINTS : nat)
    (lines : list string) (r : ParseResult.t) :
  returned (parse NUMJOINTS lines) = Some r ->
  Forall well_shaped (ParseResult.keyFrames r).
Proof.
  intros H. apply returned_keyframes in H as (pre & st & H & ->).
  apply (shape_invariant _ _ _ H).
Qed.

Lemma keyframes_are_well_shaped_witness :
  Forall well_shaped [Sample.keyframe_90].
Proof.
  apply (keyframes_are_well_shaped NAO_NUMJOINTS
           [Sample.pose_90; Sample.short_pose]
           {| ParseResult.successful := false;
              ParseResult.keyFrames := [Sample.keyframe_90] |}).
  vm_compute. reflexivity.
Defined.

Lemma set_indexes_increasing fields : forall i,
  (1 <= i)%nat -> (i + List.length fields <= 257)%nat ->
  StronglySorted Z.lt (set_indexes i fields) /\
  Forall (fun x => Z.of_nat i - 1 <= x < Z.of_nat (i + List.length fields) - 1)
    (set_indexes i fields).
Proof.
  induction fields as [|t fields IH]; intros i Hi Hlen;
    cbn [set_indexes List.length] in *.
  - split; constructor.
  - destruct (IH (S i)) as [IH1 IH2]; [lia | lia |].
    assert (Hwiden : Forall
      (fun x => Z.of_nat i - 1 <= x < Z.of_nat (i + S (List.length fields)) - 1)
      (set_indexes (S i) fields)).
    { eapply Forall_impl; [|exact IH2]. cbv beta. intros x Hx. lia. }
    destruct (unset t); [split; assumption|].
    assert (Hsmall : uint8_t (Z.of_nat i - 1) = Z.of_nat i - 1)
      by (unfold uint8_t; apply Z.mod_small; lia).
    rewrite Hsmall. split.
    + constructor; [exact IH1|].
      eapply Forall_impl; [|exact IH2]. cbv beta. intros x Hx. lia.
    + constructor; [lia | exact Hwiden].
Qed.

Lemma line_indexes_increasing (NUMJOINTS : nat) line :
  (NUMJOINTS <= 256)%nat ->
  StronglySorted Z.lt (line_indexes NUMJOINTS line) /\
  Forall (fun x => 0 <= x < Z.of_nat NUMJOINTS) (line_indexes NUMJOINTS line).
Proof.
  intros HN. unfold line_indexes.
  assert (Hlen : (List.length (value_fields NUMJOINTS line) <= NUMJOINTS)%nat)
    by (unfold value_fields; rewrite length_firstn; lia).
  destruct (set_indexes_increasing (value_fields NUMJOINTS line) 1) as [H1 H2];
    [lia | lia |].
  split; [exact H1|]. eapply Forall_impl; [|exact H2].
  cbv beta. intros x Hx. lia.
Qed.

(** X13: with a joint count that fits the 8-bit indexes (at most 256), the
    position indexes of every keyframe that [parse] returns are strictly
    increasing and below the joint count: no joint appears twice and
    none is out of the robot's range. *)
Theorem indexes_increase (NUMJOINTS : nat)
    (lines : list string) (r : ParseResult.t) :
  (NUMJOINTS <= 256)%nat ->
  returned (parse NUMJOINTS lines) = Some r ->
  Forall (fun kf =>
            StronglySorted Z.lt (JointPositions.indexes (KeyFrame.positions kf)) /\
            Forall (fun x => 0 <= x < Z.of_nat NUMJOINTS)
              (JointPositions.indexes (KeyFrame.positions kf)))
    (ParseResult.keyFrames r).
Proof.
  intros HN H. apply returned_keyframes in H as (pre & st & H & ->).
  revert pre st H.
  apply (run_ind NUMJOINTS (fun _ st =>
    Forall (fun kf =>
              StronglySorted Z.lt (JointPositions.indexes (KeyFrame.positions kf)) /\
              Forall (fun x => 0 <= x < Z.of_nat NUMJOINTS)
                (JointPositions.indexes (KeyFrame.positions kf)))
      (keyFrames st))).
  - constructor.
  - intros pre st l st' _ IH H. apply step_accepted in H.
    destruct H as [_ _ ->|_ _ _ _ ->|d _ _ _ _ _ _ ->]; try exact IH.
    cbn [emitted keyFrames]. apply Forall_app. split; [exact IH|].
    constructor; [|constructor]. cbn [KeyFrame.positions].
    rewrite line_positions_indexes. apply line_indexes_increasing. exact HN.
Qed.

Lemma indexes_increase_witness :
  Forall (fun kf =>
            StronglySorted Z.lt (JointPositions.indexes (KeyFrame.positions kf)) /\
            Forall (fun x => 0 <= x < Z.of_nat NAO_NUMJOINTS)
              (JointPositions.indexes (KeyFrame.positions kf)))
    [Sample.keyframe_90].
Proof.
  apply (indexes_increase NAO_NUMJOINTS [Sample.pose_90]
           {| ParseResult.successful := true;
              ParseResult.keyFrames := [Sample.keyframe_90] |}).
  - unfold NAO_NUMJOINTS. lia.
  - vm_compute. reflexivity.
Defined.

(* ================================================================== *)
(** * Further properties: when a directive is accepted *)

(** X14: after accepted lines, a position directive is accepted exactly when
    its token count is right and its value tokens are acceptable, its
    index sequence is that of the first position directive (if there is
    one), its last token starts with an integer that fits [int], and, if
    stiffness directives are pending, their index sequences put end to
    end are its own. *)
Theorem position_directive_acceptance (NUMJOINTS : nat)
    (pre : list string) (line : string) (r : ParseResult.t) :
  parse NUMJOINTS pre = Next r ->
  is_position line = true ->
  (exists r', parse NUMJOINTS (pre ++ [line]) = Next r') <->
  well_formed_position NUMJOINTS line = true /\
  match find is_position pre with
  | None => True
  | Some l0 => line_indexes NUMJOINTS line = line_indexes NUMJOINTS l0
  end /\
  (exists d, stoi (last (split line) EmptyString) = Converted d) /\
  (pending pre <> [] ->
   List.concat (map (line_indexes NUMJOINTS) (pending pre)) =
   line_indexes NUMJOINTS line).
Proof.
  intros H Hp. apply parse_Next in H as [st [H _]].
  assert (Href := reference_set _ _ _ H).
  destruct (accumulator_pending _ _ _ H) as (Hc & Hi & _).
  split.
  - intros [r' H']. apply parse_Next in H' as [st' [H' _]].
    apply lines_loop_snoc in H' as [st1 [H1 Hstep]].
    rewrite H in H1. injection H1 as <-.
    apply step_accepted in Hstep.
    destruct Hstep as [Hp' _ _|Hp' _ _ _ _|d _ Hlen Hok Hfirst Hmatch Hd _];
      try congruence.
    split; [|split; [|split]].
    + unfold well_formed_position. rewrite Hp, Hok.
      apply Nat.eqb_eq in Hlen. rewrite Hlen. reflexivity.
    + destruct (find is_position pre) as [l0|]; [|exact I].
      destruct Href as (Hf & Hprev & _).
      destruct Hfirst as [Hfirst|Hfirst]; congruence.
    + eauto.
    + intros Hpending. rewrite <- Hi. symmetry. apply Hmatch.
      rewrite Hc. destruct (pending pre); [congruence | reflexivity].
  - intros (Hwf & Hset & [d Hd] & Hpending).
    unfold well_formed_position in Hwf.
    apply andb_true_iff in Hwf as [Hwf Hok].
    apply andb_true_iff in Hwf as [_ Hlen]. apply Nat.eqb_eq in Hlen.
    rewrite (parse_app _ _ _ _ H). cbn [lines_loop].
    rewrite (step_position _ _ _ Hp).
    rewrite (position_directive_cases _ _ _ Hlen Hok), Hd.
    assert (Hcheck :
      negb (firstPosLine st) &&
      negb (vector_eqb (line_indexes NUMJOINTS line)
              (JointPositions.indexes (prevJointPositions st))) = false).
    { destruct (find is_position pre) as [l0|].
      - destruct Href as (_ & Hprev & _). rewrite Hprev, Hset.
        rewrite (proj2 (vector_eqb_eq _ _) eq_refl). apply andb_false_r.
      - destruct Href as [-> _]. reflexivity. }
    rewrite Hcheck. cbv zeta.
    destruct (customStiffnesses st) eqn:Hcustom.
    + assert (Hne : pending pre <> [])
        by (intros E; rewrite E in Hc; discriminate).
      rewrite Hi, (Hpending Hne), Nat.eqb_refl.
      rewrite (proj2 (vector_eqb_eq _ _) eq_refl).
      cbn [negb bind lines_loop]. eauto.
    + cbn [bind lines_loop]. eauto.
Qed.

Lemma position_directive_acceptance_witness :
  (exists r',
     parse NAO_NUMJOINTS ([Sample.stiffness_01] ++ [Sample.pose_90]) = Next r') /\
  ~ (exists r',
       parse NAO_NUMJOINTS ([Sample.stiffness_0] ++ [Sample.pose_90]) = Next r').
Proof.
  split.
  - apply (position_directive_acceptance NAO_NUMJOINTS [Sample.stiffness_01]
             Sample.pose_90
             {| ParseResult.successful := true; ParseResult.keyFrames := [] |}).
    + vm_compute. reflexivity.
    + reflexivity.
    + split; [vm_compute; reflexivity|]. split; [vm_compute; exact I|].
      split; [exists 500; vm_compute; reflexivity|].
      intros _. vm_compute. reflexivity.
  - intros H.
    apply (position_directive_acceptance NAO_NUMJOINTS [Sample.stiffness_0]
             Sample.pose_90
             {| ParseResult.successful := true; ParseResult.keyFrames := [] |})
      in H.
    + destruct H as (_ & _ & _ & H).
      assert (Hne : pending [Sample.stiffness_0] <> [])
        by (vm_compute; discriminate).
      specialize (H Hne). vm_compute in H. discriminate.
    + vm_compute. reflexivity.
    + reflexivity.
Defined.

(** X15: after accepted lines, a stiffness directive is accepted exactly when
    its token count is right and its value tokens are acceptable, and
    then the result is the one of the lines before: the directive alone
    adds no keyframe. *)
Theorem stiffness_directive_acceptance (NUMJOINTS : nat)
    (pre : list string) (line : string) (r : ParseResult.t) :
  parse NUMJOINTS pre = Next r ->
  is_stiffness line = true ->
  ((exists r', parse NUMJOINTS (pre ++ [line]) = Next r') <->
   well_formed_stiffness NUMJOINTS line = true) /\
  (forall r', parse NUMJOINTS (pre ++ [line]) = Next r' -> r' = r).
Proof.
  intros H Hs. apply parse_Next in H as [st [H ->]].
  assert (Hnp : is_position line = false).
  { unfold is_position, is_stiffness, starts_with in *.
    destruct (front line) as [c|]; [|discriminate].
    apply Ascii.eqb_eq in Hs. subst c. reflexivity. }
  assert (Hinv : forall r',
    parse NUMJOINTS (pre ++ [line]) = Next r' ->
    well_formed_stiffness NUMJOINTS line = true /\
    r' = {| ParseResult.successful := true;
            ParseResult.keyFrames := keyFrames st |}).
  { intros r' H'. apply parse_Next in H' as [st' [H' ->]].
    apply lines_loop_snoc in H' as [st1 [H1 Hstep]].
    rewrite H in H1. injection H1 as <-.
    apply step_accepted in Hstep.
    destruct Hstep as [_ Hs' _|_ _ Hlen Hok ->|d Hp' _ _ _ _ _ _];
      try congruence.
    split; [|reflexivity].
    unfold well_formed_stiffness. rewrite Hs, Hok.
    apply Nat.eqb_eq in Hlen. rewrite Hlen. reflexivity. }
  split; [split|].
  - intros [r' H']. apply (Hinv r' H').
  - intros Hwf. unfold well_formed_stiffness in Hwf.
    apply andb_true_iff in Hwf as [Hwf Hok].
    apply andb_true_iff in Hwf as [_ Hlen]. apply Nat.eqb_eq in Hlen.
    rewrite (parse_app _ _ _ _ H). cbn [lines_loop].
    rewrite (step_stiffness _ _ _ Hs).
    rewrite (stiffness_directive_accepts _ _ _ Hlen Hok). cbn [bind]. eauto.
  - intros r' H'. apply (Hinv r' H').
Qed.

Lemma stiffness_directive_acceptance_witness :
  ((exists r',
      parse NAO_NUMJOINTS ([Sample.pose_90] ++ [Sample.stiffness_letters]) = Next r') <->
   well_formed_stiffness NAO_NUMJOINTS Sample.stiffness_letters = true) /\
  (forall r',
     parse NAO_NUMJOINTS ([Sample.pose_90] ++ [Sample.stiffness_letters]) = Next r' ->
     r' = {| ParseResult.successful := true;
             ParseResult.keyFrames := [Sample.keyframe_90] |}).
Proof.
  apply (stiffness_directive_acceptance NAO_NUMJOINTS [Sample.pose_90]
           Sample.stiffness_letters).
  - vm_compute. reflexivity.
  - reflexivity.
Defined.

(* ================================================================== *)
(** * Further properties: numbers out of range *)

Section OutOfRangeToken.

Variable toks : list string.
Variable k : nat.
Variable tok : string.
Hypothesis Htok : nth_error toks k = Some tok.
Hypothesis Hset : unset tok = false.
Hypothesis Hrange : stof tok = out_of_range.

Lemma positions_loop_out_of_range n : forall i st jp,
  (i <= k < i + n)%nat ->
  (forall j t, (i <= j < k)%nat -> nth_error toks j = Some t ->
               acceptable t = true) ->
  positions_loop toks n i st jp = Throw (std_out_of_range "stof").
Proof.
  induction n as [|n IH]; intros i st jp Hk Hbefore; [lia|].
  cbn [positions_loop].
  destruct (Nat.eq_dec i k) as [->|Hne].
  - rewrite Htok. fold (unset tok). rewrite Hset, Hrange. reflexivity.
  - destruct (nth_error toks i) as [t|] eqn:Ht.
    2:{ apply nth_error_None in Ht.
        assert (k < List.length toks)%nat
          by (apply nth_error_Some; congruence). lia. }
    assert (Hacc : acceptable t = true) by (apply (Hbefore i); [lia | exact Ht]).
    unfold acceptable in Hacc. fold (unset t).
    destruct (unset t); [apply IH; [lia | intros; eapply Hbefore; eauto; lia]|].
    simpl in Hacc. destruct (stof t); try discriminate.
    apply IH; [lia | intros; eapply Hbefore; eauto; lia].
Qed.

Lemma stiffnesses_loop_out_of_range n : forall i st,
  (i <= k < i + n)%nat ->
  (forall j t, (i <= j < k)%nat -> nth_error toks j = Some t ->
               acceptable t = true) ->
  stiffnesses_loop toks n i st = Throw (std_out_of_range "stof").
Proof.
  induction n as [|n IH]; intros i st Hk Hbefore; [lia|].
  cbn [stiffnesses_loop].
  destruct (Nat.eq_dec i k) as [->|Hne].
  - rewrite Htok. fold (unset tok). rewrite Hset, Hrange. reflexivity.
  - destruct (nth_error toks i) as [t|] eqn:Ht.
    2:{ apply nth_error_None in Ht.
        assert (k < List.length toks)%nat
          by (apply nth_error_Some; congruence). lia. }
    assert (Hacc : acceptable t = true) by (apply (Hbefore i); [lia | exact Ht]).
    unfold acceptable in Hacc. fold (unset t).
    destruct (unset t); [apply IH; [lia | intros; eapply Hbefore; eauto; lia]|].
    simpl in Hacc. destruct (stof t); try discriminate.
    apply IH; [lia | intros; eapply Hbefore; eauto; lia].
Qed.

End OutOfRangeToken.

(** X16: a value token that [std::stof] finds out of range, the tokens before
    it on the line being acceptable: [parse] returns no result, the
    exception [std::out_of_range] leaves it. *)
Theorem out_of_range_value_throws (NUMJOINTS : nat)
    (pre post : list string) (line tok : string) (k : nat)
    (r : ParseResult.t) :
  parse NUMJOINTS pre = Next r ->
  (is_stiffness line = true /\
   List.length (split line) = STIFFNESSES_SIZE NUMJOINTS) \/
  (is_position line = true /\
   List.length (split line) = POSITIONS_SIZE NUMJOINTS) ->
  (1 <= k <= NUMJOINTS)%nat ->
  nth_error (split line) k = Some tok ->
  stof tok = out_of_range ->
  (forall j t, (1 <= j < k)%nat -> nth_error (split line) j = Some t ->
               acceptable t = true) ->
  parse NUMJOINTS (pre ++ line :: post) = Throw (std_out_of_range "stof") /\
  returned (parse NUMJOINTS (pre ++ line :: post)) = None.
Proof.
  intros Hpre Hline Hk Htok Hrange Hbefore.
  assert (Hset : unset tok = false).
  { unfold unset. destruct (tok =? "-")%string eqn:E; [|reflexivity].
    apply String.eqb_eq in E. subst tok. vm_compute in Hrange. discriminate. }
  apply parse_Next in Hpre as [st [Hpre ->]].
  rewrite (parse_app _ _ _ _ Hpre). cbn [lines_loop].
  destruct Hline as [[Hs Hlen]|[Hp Hlen]].
  - rewrite (step_stiffness _ _ _ Hs). unfold stiffness_directive.
    rewrite Hlen, Nat.eqb_refl. cbn [negb].
    rewrite (stiffnesses_loop_out_of_range (split line) k tok Htok Hset Hrange)
      by (auto; lia).
    split; reflexivity.
  - rewrite (step_position _ _ _ Hp). unfold position_directive.
    rewrite Hlen, Nat.eqb_refl. cbn [negb].
    rewrite (positions_loop_out_of_range (split line) k tok Htok Hset Hrange)
      by (auto; lia).
    split; reflexivity.
Qed.

Lemma out_of_range_value_throws_witness :
  parse NAO_NUMJOINTS ([Sample.pose_90] ++ Sample.pose_huge :: []) =
    Throw (std_out_of_range "stof") /\
  returned (parse NAO_NUMJOINTS ([Sample.pose_90] ++ Sample.pose_huge :: []))
    = None.
Proof.
  apply (out_of_range_value_throws NAO_NUMJOINTS [Sample.pose_90] []
           Sample.pose_huge "1e40" 1
           {| ParseResult.successful := true;
              ParseResult.keyFrames := [Sample.keyframe_90] |}).
  - vm_compute. reflexivity.
  - right. split; reflexivity.
  - unfold NAO_NUMJOINTS. lia.
  - reflexivity.
  - vm_compute. reflexivity.
  - intros j t Hj. lia.
Defined.

(** X17: a duration that does not fit [int], on a position directive whose
    tokens pass and whose joint set is the reference one: the exception
    of [std::stoi] leaves [parse]. *)
Theorem out_of_range_duration_throws (NUMJOINTS : nat)
    (pre post : list string) (line : string) (r : ParseResult.t) :
  parse NUMJOINTS pre = Next r ->
  well_formed_position NUMJOINTS line = true ->
  match find is_position pre with
  | None => True
  | Some l0 => line_indexes NUMJOINTS line = line_indexes NUMJOINTS l0
  end ->
  stoi (last (split line) EmptyString) = out_of_range ->
  parse NUMJOINTS (pre ++ line :: post) = Throw (std_out_of_range "stoi").
Proof.
  intros H Hwf Hset Hd. apply parse_Next in H as [st [H ->]].
  assert (Href := reference_set _ _ _ H).
  unfold well_formed_position in Hwf.
  apply andb_true_iff in Hwf as [Hwf Hok].
  apply andb_true_iff in Hwf as [Hp Hlen]. apply Nat.eqb_eq in Hlen.
  rewrite (parse_app _ _ _ _ H). cbn [lines_loop].
  rewrite (step_position _ _ _ Hp).
  rewrite (position_directive_cases _ _ _ Hlen Hok), Hd.
  destruct (find is_position pre) as [l0|].
  - destruct Href as (_ & Hprev & _). rewrite Hprev, Hset.
    rewrite (proj2 (vector_eqb_eq _ _) eq_refl), andb_false_r. reflexivity.
  - destruct Href as [-> _]. reflexivity.
Qed.

Lemma out_of_range_duration_throws_witness :
  parse NAO_NUMJOINTS
    ([Sample.pose_90] ++
     "! 90 -90 - - - - - - - - - - - - - - - - - - - - - - - 2147483648" :: []) =
  Throw (std_out_of_range "stoi").
Proof.
  apply (out_of_range_duration_throws NAO_NUMJOINTS [Sample.pose_90] []
           "! 90 -90 - - - - - - - - - - - - - - - - - - - - - - - 2147483648"
           {| ParseResult.successful := true;
              ParseResult.keyFrames := [Sample.keyframe_90] |}).
  - vm_compute. reflexivity.
  - vm_compute. reflexivity.
  - vm_compute. reflexivity.
  - vm_compute. reflexivity.
Defined.

(* ================================================================== *)
(** * Further properties: the conversion to radians *)

Lemma binary_round_aux_opp prec emax s m e l :
  binary_round_aux prec emax (negb s) m e l =
  SFopp (binary_round_aux prec emax s m e l).
Proof.
  unfold binary_round_aux.
  destruct (shr_fexp prec emax m e l) as [mrs' e'].
  destruct (shr_fexp prec emax _ e' loc_Exact) as [mrs'' e''].
  destruct (shr_m mrs''); try reflexivity.
  destruct (Z.leb e'' (Z.sub emax prec)); reflexivity.
Qed.

Lemma binary_round_opp prec emax s m e :
  binary_round prec emax (negb s) m e = SFopp (binary_round prec emax s m e).
Proof.
  unfold binary_round. destruct (shl_align _ _ _) as [mz ez].
  apply binary_round_aux_opp.
Qed.

Lemma SFmul_opp prec emax x y :
  SFmul prec emax (SFopp x) y = SFopp (SFmul prec emax x y).
Proof.
  destruct x as [sx|sx| |sx mx ex], y as [sy|sy| |sy my ey]; simpl;
    rewrite <- ?negb_xorb_l; try reflexivity.
  apply binary_round_aux_opp.
Qed.

Lemma SFdiv_opp prec emax x y :
  SFdiv prec emax (SFopp x) y = SFopp (SFdiv prec emax x y).
Proof.
  destruct x as [sx|sx| |sx mx ex], y as [sy|sy| |sy my ey]; simpl;
    rewrite <- ?negb_xorb_l; try reflexivity.
  destruct (SFdiv_core_binary _ _ _ _ _ _) as [[mz ez] lz].
  apply binary_round_aux_opp.
Qed.

(** X18: the conversion of degrees to radians is odd: the opposite angle in
    degrees gives exactly the opposite float in radians, for every
    float, so a pose and its mirror image get mirrored values. *)
Theorem deg2rad_opposite (position_deg : spec_float) :
  deg2rad (SFopp position_deg) = SFopp (deg2rad position_deg).
Proof.
  unfold deg2rad, mul, div. rewrite SFmul_opp, SFdiv_opp.
  destruct (SFdiv _ _ _ _) as [s|s| |s m e]; try reflexivity.
  apply binary_round_opp.
Qed.

(* ================================================================== *)
(** * Further properties: the flag and the accumulated stiffness *)

(** X19: the flag of the returned result tells what happened: it is [true]
    exactly when every line was accepted, and [false] exactly when
    [parse] stopped at an error that it reported. *)
Theorem successful_flag_is_reliable (NUMJOINTS : nat)
    (lines : list string) (r : ParseResult.t) :
  returned (parse NUMJOINTS lines) = Some r ->
  (ParseResult.successful r = true <-> parse NUMJOINTS lines = Next r) /\
  (ParseResult.successful r = false <->
   exists d, parse NUMJOINTS lines = Return d r).
Proof.
  intros H. destruct (parse NUMJOINTS lines) as [r0|d r0|e|] eqn:Hp;
    simpl in H; try discriminate; injection H as ->.
  - assert (Hs : ParseResult.successful r = true)
      by (apply parse_Next in Hp as [st [_ ->]]; reflexivity).
    split; split; intros H; try reflexivity; try exact Hs.
    + congruence.
    + destruct H as [d H]. discriminate.
  - assert (Hs : ParseResult.successful r = false).
    { apply parse_stops in Hp
        as (pre & l & post & st & r1 & -> & _ & _ & _ & H); [|discriminate].
      destruct (step NUMJOINTS st l) as [st'|d' r'|e'|] eqn:Hstep;
        try contradiction; try discriminate.
      injection H as -> ->. apply step_Return in Hstep. subst. reflexivity. }
    split; split; intros H; try exact Hs; try congruence; try discriminate.
    exists d. reflexivity.
Qed.

Lemma successful_flag_is_reliable_witness :
  (false = true <->
   parse NAO_NUMJOINTS [Sample.pose_90; Sample.short_pose] =
   Next {| ParseResult.successful := false;
           ParseResult.keyFrames := [Sample.keyframe_90] |}) /\
  (false = false <->
   exists d,
     parse NAO_NUMJOINTS [Sample.pose_90; Sample.short_pose] =
     Return d {| ParseResult.successful := false;
                 ParseResult.keyFrames := [Sample.keyframe_90] |}).
Proof.
  apply (successful_flag_is_reliable NAO_NUMJOINTS
           [Sample.pose_90; Sample.short_pose]
           {| ParseResult.successful := false;
              ParseResult.keyFrames := [Sample.keyframe_90] |}).
  vm_compute. reflexivity.
Defined.

(** X20: stiffness directives add up, they do not replace one another.  With
    a joint count of at most 256, if the index sequences of the pending
    stiffness directives, put end to end, are not strictly increasing
    (a joint is given twice, or out of order), no position directive is
    accepted next. *)
Theorem repeated_stiffness_blocks (NUMJOINTS : nat)
    (pre : list string) (line : string) (r r' : ParseResult.t) :
  (NUMJOINTS <= 256)%nat ->
  parse NUMJOINTS pre = Next r ->
  is_position line = true ->
  ~ StronglySorted Z.lt
      (List.concat (map (line_indexes NUMJOINTS) (pending pre))) ->
  parse NUMJOINTS (pre ++ [line]) <> Next r'.
Proof.
  intros HN H Hp Hnot H'. apply Hnot.
  assert (Hne : pending pre <> []).
  { intros E. apply Hnot. rewrite E. constructor. }
  apply parse_Next in H as [st [H _]].
  destruct (accumulator_pending _ _ _ H) as (Hc & Hi & _).
  apply parse_Next in H' as [st' [H' _]].
  apply lines_loop_snoc in H' as [st1 [H1 Hstep]].
  rewrite H in H1. injection H1 as <-.
  apply step_accepted in Hstep.
  destruct Hstep as [Hp' _ _|Hp' _ _ _ _|d _ _ _ _ Hmatch _ _];
    try congruence.
  rewrite <- Hi, <- Hmatch.
  - apply line_indexes_increasing. exact HN.
  - rewrite Hc. destruct (pending pre); [congruence | reflexivity].
Qed.

Lemma repeated_stiffness_blocks_witness :
  parse NAO_NUMJOINTS ([Sample.stiffness_0; Sample.stiffness_0] ++ [Sample.pose_300])
  <> Next {| ParseResult.successful := true; ParseResult.keyFrames := [] |}.
Proof.
  apply (repeated_stiffness_blocks NAO_NUMJOINTS
           [Sample.stiffness_0; Sample.stiffness_0] Sample.pose_300
           {| ParseResult.successful := true; ParseResult.keyFrames := [] |}).
  - unfold NAO_NUMJOINTS. lia.
  - vm_compute. reflexivity.
  - reflexivity.
  - vm_compute. intros H. inversion H as [|a l Hs Hf]; subst.
    inversion Hf as [|b l' Hlt _]; subst. vm_compute in Hlt. discriminate.
Defined.
